(** * Chessboard line selection and tile slicing

    A shallow embedding of the algorithmic core of [tensorflow_compvision.py]
    (the convolution kernels and morphological operators, the Hough response
    curves and their thresholds, the functions [checkMatch], [pruneLines],
    [skeletonize_1d], [getChessLines], [getChessTiles], and the script that
    detects the board and names the tiles) and of [getRandomFEN] and the
    file names derived from it in [tensorflow_generate_training_data.py].

    Conventions.
    - Pixel indices, line positions and gaps are numpy [int64] values; they
      are indices into in-memory arrays, so they never wrap and are modelled
      as [Z].
    - Floating-point samples (response curves, thresholds, the Gaussian
      window) are modelled as rationals [Q]; every theorem about the line
      selector holds for an arbitrary window, so none depends on rounding.
    - Image tensors are [float32] arrays of integer values and are modelled
      as arrays of [Z].
    - A Python exception is modelled by [None]. *)

From Stdlib Require Import ZArith QArith Lia String Ascii.
From stdpp Require Import base list sorting.

Local Open Scope Z_scope.

(** ** numpy helpers on one-dimensional integer arrays *)

(** [np.diff]: consecutive differences, one entry fewer than the input. *)
Fixpoint np_diff (l : list Z) : list Z :=
  match l with
  | a :: (b :: _) as t => (b - a) :: np_diff t
  | _ => []
  end.

(** [a[lo:hi]] for non-negative bounds: Python clips both to the length. *)
Definition slice {A} (lo hi : nat) (l : list A) : list A :=
  drop lo (take hi l).

(** A strictly increasing array. *)
Abbreviation increasing := (StronglySorted Z.lt).

(** ** checkMatch *)

(** The gap test of both scans: [np.abs(line - x) < 5]. *)
Definition within5 (line x : Z) : bool := Z.abs (line - x) <? 5.

(** The [for line in linediff] loop of [checkMatch]; the state is the
    reference gap [x] and the counter [cnt], the result is the final
    counter. *)
Fixpoint checkMatch_loop (linediff : list Z) (x : Z) (cnt : nat) : nat :=
  match linediff with
  | [] => cnt
  | line :: rest =>
      if within5 line x
      then checkMatch_loop rest x (S cnt)
      else checkMatch_loop rest line 0%nat
  end.

Definition checkMatch (lineset : list Z) : bool :=
  Nat.eqb (checkMatch_loop (np_diff lineset) 0 0%nat) 5.

(** ** pruneLines *)

(** The [for i, line in enumerate(linediff)] loop of [pruneLines], with its
    early [return lineset[start_pos:end_pos]]; falling out of the loop
    returns [lineset] itself.  The [print(i, x)] of the reset branch writes
    to the console only and is left out. *)
Fixpoint pruneLines_loop (lineset linediff : list Z) (i : nat)
    (x : Z) (cnt start_pos : nat) : list Z :=
  match linediff with
  | [] => lineset
  | line :: rest =>
      if within5 line x then
        if Nat.eqb (S cnt) 5
        then slice start_pos (i + 2) lineset
        else pruneLines_loop lineset rest (S i) x (S cnt) start_pos
      else pruneLines_loop lineset rest (S i) line 0%nat i
  end.

Definition pruneLines (lineset : list Z) : list Z :=
  pruneLines_loop lineset (np_diff lineset) 0%nat 0 0%nat 0%nat.

(** ** Floating-point samples as rationals *)

Definition Qlt_bool (a b : Q) : bool := negb (Qle_bool b a).

(** ** np.convolve(a, v, mode='same') *)

(** Pointwise sum of two coefficient lists, the longer tail kept. *)
Fixpoint addl (a b : list Q) : list Q :=
  match a, b with
  | [], _ => b
  | _, [] => a
  | x :: a', y :: b' => (x + y)%Q :: addl a' b'
  end.

(** The full discrete convolution, [len a + len v - 1] samples. *)
Fixpoint conv_full (a v : list Q) : list Q :=
  match a with
  | [] => []
  | x :: a' => addl (map (Qmult x) v) (0%Q :: conv_full a' v)
  end.

(** numpy raises [ValueError] when either operand is empty.  In mode
    ['same'] the result has the length of the longer operand and is the
    centred part of the full convolution: with [n] the length of the
    shorter operand, the first [n - 1 - n/2] samples are skipped. *)
Definition np_convolve_same (a v : list Q) : option (list Q) :=
  match a, v with
  | [], _ | _, [] => None
  | _, _ =>
      let n1 := Nat.max (length a) (length v) in
      let n2 := Nat.min (length a) (length v) in
      Some (take n1 (drop (n2 - 1 - n2 / 2)%nat (conv_full a v)))
  end.

(** A boolean numpy array used as a numeric operand. *)
Definition bool_to_Q (b : bool) : Q := if b then 1%Q else 0%Q.

(** [hd > thresh], elementwise. *)
Definition binarize (hd : list Q) (thresh : Q) : list bool :=
  map (Qlt_bool thresh) hd.

(** ** skeletonize_1d *)

(** One iteration of the forward loop: reads the original [arr[i]] and the
    working copy [_arr[i + 1]]. *)
Definition skel_forward_step (arr _arr : list Q) (i : nat) : list Q :=
  match arr !! i, _arr !! S i with
  | Some a, Some b => if Qle_bool a b then <[i := 0%Q]> _arr else _arr
  | _, _ => _arr
  end.

(** One iteration of the reverse loop: [if _arr[i-1] > _arr[i]]. *)
Definition skel_reverse_step (_arr : list Q) (i : nat) : list Q :=
  match _arr !! (i - 1)%nat, _arr !! i with
  | Some a, Some b => if Qlt_bool b a then <[i := 0%Q]> _arr else _arr
  | _, _ => _arr
  end.

Definition skeletonize_1d (arr : list Q) : list Q :=
  let fwd := fold_left (skel_forward_step arr) (seq 0 (length arr - 1)) arr in
  fold_left skel_reverse_step (rev (seq 1 (length arr - 1))) fwd.

(** ** np.where(arr)[0]: the indices of the non-zero samples, ascending *)

Fixpoint where_from (i : Z) (arr : list Q) : list Z :=
  match arr with
  | [] => []
  | q :: rest =>
      if Qeq_bool q 0 then where_from (i + 1) rest
      else i :: where_from (i + 1) rest
  end.

Definition np_where (arr : list Q) : list Z := where_from 0 arr.

(** ** getChessLines *)

Section LineSelector.

(** The normalised window [scipy.signal.gaussian(21, 4) / sum]. *)
Variable gausswin : list Q.

(** Binarise, blur, skeletonise and read off the candidate positions of
    one axis (the lines before pruning). *)
Definition candidateLines (hd : list Q) (thresh : Q) : option (list Z) :=
  blur ← np_convolve_same (map bool_to_Q (binarize hd thresh)) gausswin;
  Some (np_where (skeletonize_1d blur)).

(** Both blurs are computed before anything else, so an empty curve on
    either axis raises before any line is returned. *)
Definition getChessLines (hdx hdy : list Q) (hdx_thresh hdy_thresh : Q)
    : option (list Z * list Z * bool) :=
  cand_x ← candidateLines hdx hdx_thresh;
  cand_y ← candidateLines hdy hdy_thresh;
  let lines_x := pruneLines cand_x in
  let lines_y := pruneLines cand_y in
  let is_match :=
    Nat.eqb (length lines_x) 7 && Nat.eqb (length lines_y) 7
    && checkMatch lines_x && checkMatch lines_y in
  Some (lines_x, lines_y, is_match).

(** The detection script: two calls in sequence, the second with both
    thresholds multiplied by [.9]; the names [lines_x], [lines_y] and
    [is_match] are rebound by the second call. *)
Definition detection_script (hdx hdy : list Q) (hdx_thresh hdy_thresh : Q)
    : option (list Z * list Z * bool) :=
  _ ← getChessLines hdx hdy hdx_thresh hdy_thresh;
  getChessLines hdx hdy (hdx_thresh * (9 # 10))%Q (hdy_thresh * (9 # 10))%Q.

End LineSelector.

(** A rational rendering of the Gaussian window, used wherever a concrete
    window is needed: the samples [exp(-(n/4)^2/2)] to three decimals of
    their sum, divided by the sum of the list as the source does. *)
Definition gausswin21 : list Q :=
  map (fun n => (n # 1001)%Q)
    [4; 8; 14; 22; 33; 46; 61; 76; 89; 97;
     101;
     97; 89; 76; 61; 46; 33; 22; 14; 8; 4].

(** A curve with a sample of height [v] at each listed position. *)
Definition spikes (n : nat) (ps : list (nat * Q)) : list Q :=
  fold_left (fun acc p => <[p.1 := p.2]> acc) ps (replicate n 0%Q).

Definition board_curve : list Q :=
  spikes 240 [(30%nat, 100%Q); (60%nat, 100%Q); (90%nat, 100%Q);
              (105%nat, 95%Q);
              (120%nat, 100%Q); (150%nat, 100%Q); (180%nat, 100%Q);
              (210%nat, 100%Q)].

(** ** Two-dimensional arrays *)

(** A 2-D numpy array is a list of rows.  An array without rows is modelled
    without columns. *)
Definition nrows {A} (a : list (list A)) : nat := length a.
Definition ncols {A} (a : list (list A)) : nat :=
  match a with [] => 0%nat | r :: _ => length r end.

(** [m.shape == (r, c)]. *)
Definition has_shape {A} (r c : nat) (m : list (list A)) : Prop :=
  length m = r /\ Forall (fun row => length row = c) m.

(** [x] occurs somewhere in the array [m]. *)
Definition pixel_of {A} (x : A) (m : list (list A)) : Prop :=
  exists row, row ∈ m /\ x ∈ row.

(** Python's normalisation of a slice bound against a length [n]: a
    negative bound counts from the end, then both are clipped to [0, n]. *)
Definition norm_index (n : nat) (i : Z) : nat :=
  if i <? 0 then Z.to_nat (Z.max (i + Z.of_nat n) 0)
  else Z.to_nat (Z.min i (Z.of_nat n)).

(** [l[lo:hi]] for arbitrary integer bounds. *)
Definition py_slice {A} (lo hi : Z) (l : list A) : list A :=
  slice (norm_index (length l) lo) (norm_index (length l) hi) l.

(** [a[y1:y2, x1:x2]]. *)
Definition py_slice2 {A} (y1 y2 x1 x2 : Z) (a : list (list A))
    : list (list A) :=
  map (py_slice x1 x2) (py_slice y1 y2 a).

(** [np.pad(l, (before, after), mode='edge')] on one axis: an empty axis
    cannot be extended ([ValueError]). *)
Definition pad_edge {A} (before after : nat) (l : list A) : option (list A) :=
  match l with
  | [] => if Nat.eqb (before + after) 0 then Some [] else None
  | x :: _ =>
      Some (replicate before x ++ l ++ replicate after (default x (last l)))
  end.

(** [np.pad(a, ((pt, pb), (pl, pr)), mode='edge')].  The widths are
    absolute values or positive differences in every call of the source,
    hence naturals. *)
Definition np_pad_edge {A} (pt pb pl pr : nat) (a : list (list A))
    : option (list (list A)) :=
  match a with
  | [] => if Nat.eqb (pt + pb + pl + pr) 0 then Some [] else None
  | _ => rows ← mapM (pad_edge pl pr) a; pad_edge pt pb rows
  end.

(** ** getChessTiles *)

(** [np.round] of the quotient [num / den], [den > 0]: to nearest, ties to
    the even neighbour. *)
Definition round_half_even (num den : Z) : Z :=
  let q := num / den in
  let r := num mod den in
  if 2 * r <? den then q
  else if den <? 2 * r then q + 1
  else if Z.even q then q else q + 1.

Definition sumZ (l : list Z) : Z := fold_right Z.add 0 l.

(** [np.int32(np.round(np.mean(np.diff(lines))))].  The mean of no gap at
    all is [nan], which has no integer value ([ValueError]).  The quotient
    is a pixel distance, far inside the exact range of both [float64] and
    [int32]. *)
Definition step_size (lines : list Z) : option Z :=
  match np_diff lines with
  | [] => None
  | d => Some (round_half_even (sumZ d) (Z.of_nat (length d)))
  end.

(** The four padding widths of the source image, in the order
    [(padl_y, padr_y, padl_x, padr_x)].  [x0], [xl] are [lines_x[0]] and
    [lines_x[-1]], [h], [w] are [a.shape[0]] and [a.shape[1]].  The fourth
    test compares [lines_y[-1] + stepx], as the source does. *)
Definition image_pads (x0 xl y0 yl stepx stepy h w : Z) : Z * Z * Z * Z :=
  let padl_x := if x0 - stepx <? 0 then Z.abs (x0 - stepx) else 0 in
  let padr_x := if w - 1 <? xl + stepx then Z.abs (xl + stepx - w) else 0 in
  let padl_y := if y0 - stepy <? 0 then Z.abs (y0 - stepy) else 0 in
  let padr_y := if h - 1 <? yl + stepx then Z.abs (yl + stepy - h) else 0 in
  (padl_y, padr_y, padl_x, padr_x).

(** [np.hstack([lines[0] - step, lines, lines[-1] + step]) + padl]. *)
Definition boundary_sets (first lst step padl : Z) (lines : list Z) : list Z :=
  map (fun v => v + padl) ((first - step) :: lines ++ [lst + step]).

(** The per-axis block of the loop body ("Vertical lines" for [i],
    "Horizontal lines" for [j]; the two blocks are the same code): from
    [sets[k]], [sets[k+1]] and the step, the final bounds and the
    [(padl, padr)] widths of the cell. *)
Definition cell_bounds (sets : list Z) (step : Z) (k : nat)
    : option (Z * Z * Z * Z) :=
  c1 ← sets !! k;
  c2 ← sets !! S k;
  if step <? c2 - c1 then
    if Nat.eqb k 7 then Some (c2 - step, c2, 0, 0)
    else Some (c1, c1 + step, 0, 0)
  else if c2 - c1 <? step then
    if Nat.eqb k 7 then Some (c1, c2, 0, step - (c2 - c1))
    else Some (c1, c2, step - (c2 - c1), 0)
  else Some (c1, c2, 0, 0).

(** One tile of the stack, [squares[:, :, k]]: rows of [uint8] values. *)
Definition tile : Type := list (list Z).

(** Broadcasting one axis of the value to the extent [n] of the target:
    equal extents are kept, an extent of one is repeated, anything else
    is a [ValueError]. *)
Definition broadcast_axis {A} (n : nat) (l : list A) : option (list A) :=
  if Nat.eqb (length l) n then Some l
  else match l with
       | [x] => Some (replicate n x)
       | _ => None
       end.

(** A Python [for] loop over [idx] whose body may raise. *)
Fixpoint for_each {S I} (body : S -> I -> option S) (idx : list I) (s : S)
    : option S :=
  match idx with
  | [] => Some s
  | i :: rest => s' ← body s i; for_each body rest s'
  end.

(** The stack index written for column [i] and row [j]. *)
Definition tile_index (i j : nat) : nat := ((7 - j) * 8 + i)%nat.

Section TileSlicer.

(** A [float32] intensity, and its conversion on assignment into the
    [uint8] stack (numpy's C cast), both kept abstract. *)
Variable pixel : Type.
Variable to_uint8 : pixel -> Z.

(** The right-hand side of the assignment in the loop body for column
    [i] and row [j]: the padded slice, before conversion. *)
Definition cell_slice (a2 : list (list pixel)) (setsx setsy : list Z)
    (stepx stepy : Z) (i j : nat) : option (list (list pixel)) :=
  '(x1, x2, padl_x, padr_x) ← cell_bounds setsx stepx i;
  '(y1, y2, padl_y, padr_y) ← cell_bounds setsy stepy j;
  np_pad_edge (Z.to_nat padl_y) (Z.to_nat padr_y)
              (Z.to_nat padl_x) (Z.to_nat padr_x)
              (py_slice2 y1 y2 x1 x2 a2).

(** [squares[:, :, k] = v] seen from tile [k]: [v] is broadcast to
    [(stepy, stepx)] and converted to [uint8]. *)
Definition store_tile (stepy stepx : nat) (v : list (list pixel))
    : option tile :=
  rows ← broadcast_axis stepy v;
  mapM (fun r => map to_uint8 <$> broadcast_axis stepx r) rows.

(** Everything [getChessTiles] computes before it allocates the stack:
    the padded and cropped image, the nine boundaries per axis relative
    to the crop, and the two steps. *)
Record grid : Type := Grid {
  grid_a2 : list (list pixel);
  grid_setsx : list Z;
  grid_setsy : list Z;
  grid_stepx : Z;
  grid_stepy : Z
}.

Definition tile_grid (a : list (list pixel)) (lines_x lines_y : list Z)
    : option grid :=
  stepx ← step_size lines_x;
  stepy ← step_size lines_y;
  x0 ← head lines_x;
  xl ← last lines_x;
  y0 ← head lines_y;
  yl ← last lines_y;
  let '(padl_y, padr_y, padl_x, padr_x) :=
    image_pads x0 xl y0 yl stepx stepy
               (Z.of_nat (nrows a)) (Z.of_nat (ncols a)) in
  a2 ← np_pad_edge (Z.to_nat padl_y) (Z.to_nat padr_y)
                   (Z.to_nat padl_x) (Z.to_nat padr_x) a;
  let setsx := boundary_sets x0 xl stepx padl_x lines_x in
  let setsy := boundary_sets y0 yl stepy padl_y lines_y in
  sx0 ← head setsx;
  sxl ← last setsx;
  sy0 ← head setsy;
  syl ← last setsy;
  Some (Grid (py_slice2 sy0 syl sx0 sxl a2)
             (map (fun v => v - sx0) setsx)
             (map (fun v => v - sy0) setsy)
             stepx stepy).

(** The tile of column [i], row [j]: the padded slice as it is stored. *)
Definition cell_tile (g : grid) (i j : nat) : option tile :=
  v ← cell_slice (grid_a2 g) (grid_setsx g) (grid_setsy g)
                 (grid_stepx g) (grid_stepy g) i j;
  store_tile (Z.to_nat (grid_stepy g)) (Z.to_nat (grid_stepx g)) v.

Definition loop_body (g : grid) (i : nat) (squares : list tile) (j : nat)
    : option (list tile) :=
  t ← cell_tile g i j;
  Some (<[tile_index i j := t]> squares).

(** [np.zeros] refuses a negative extent; then the two nested loops. *)
Definition fill_tiles (g : grid) : option (list tile) :=
  if (grid_stepy g <? 0) || (grid_stepx g <? 0) then None
  else
    let squares :=
      replicate 64 (replicate (Z.to_nat (grid_stepy g))
                              (replicate (Z.to_nat (grid_stepx g)) 0)) in
    for_each
      (fun squares i => for_each (loop_body g i) (seq 0 8) squares)
      (seq 0 8) squares.

Definition getChessTiles (a : list (list pixel)) (lines_x lines_y : list Z)
    : option (list tile) :=
  g ← tile_grid a lines_x lines_y;
  fill_tiles g.

End TileSlicer.

Arguments Grid {pixel} _ _ _ _ _.
Arguments grid_a2 {pixel} _.
Arguments grid_setsx {pixel} _.
Arguments grid_setsy {pixel} _.
Arguments grid_stepx {pixel} _.
Arguments grid_stepy {pixel} _.

(** ** getRandomFEN *)

Definition fen_chars : list ascii := list_ascii_of_string "1KQRBNPkqrbnp".

(** [np.random.choice(population, size)]: the generator yields [size]
    indices below [len(population)]; [draws] is that outcome. *)
Definition random_choice (population : list ascii) (draws : list nat)
    : option (list ascii) :=
  mapM (fun k => population !! k) draws.

(** [[''.join(pieces[i*8:(i+1)*8]) for i in range(8)]]. *)
Definition fen_groups (pieces : list ascii) : list string :=
  map (fun i => string_of_list_ascii (slice (i * 8) ((i + 1) * 8) pieces))
      (seq 0 8).

(** ['/'.join(...)] of the groups. *)
Definition join_fen (pieces : list ascii) : string :=
  String.concat "/" (fen_groups pieces).

Definition getRandomFEN (draws : list nat) : option string :=
  pieces ← random_choice fen_chars draws;
  Some (join_fen pieces).

(** Reading a delimited string back: the fields between occurrences of
    [sep]. *)
Fixpoint split_on (sep : ascii) (s : string) : list string :=
  match s with
  | EmptyString => [EmptyString]
  | String c rest =>
      if Ascii.eqb c sep then EmptyString :: split_on sep rest
      else match split_on sep rest with
           | [] => [String c EmptyString]
           | f :: fs => String c f :: fs
           end
  end.

(** ** The claims' own notions *)

(** A run of five consecutive matching gaps exists: at some point of the
    scan the counter of consecutive gaps matching the current reference
    gap stands at five. *)
Definition run_of_5 (lineset : list Z) : Prop :=
  exists k : nat, checkMatch_loop (take k (np_diff lineset)) 0 0%nat = 5%nat.

(** Six gaps consistent within the tolerance: the five that follow each
    match the first, the reference gap of the run. *)
Definition consistent_gaps (lines : list Z) : Prop :=
  match np_diff lines with
  | x :: rest => length rest = 5%nat /\ Forall (fun d => within5 d x = true) rest
  | [] => False
  end.

(** Retrying as the specification words it: the second, scaled attempt is
    made only after the first has failed. *)
Definition detect_with_retry (gausswin hdx hdy : list Q)
    (hdx_thresh hdy_thresh : Q) : option (list Z * list Z * bool) :=
  match getChessLines gausswin hdx hdy hdx_thresh hdy_thresh with
  | None => None
  | Some (lines_x, lines_y, true) => Some (lines_x, lines_y, true)
  | Some (_, _, false) =>
      getChessLines gausswin hdx hdy
        (hdx_thresh * (9 # 10))%Q (hdy_thresh * (9 # 10))%Q
  end.

(** ** The scan of pruneLines *)

(** Every gap with an index in [lo, hi) matches the reference gap [x]. *)
Definition matches_between (d : list Z) (x : Z) (lo hi : nat) : Prop :=
  forall k : nat, (lo <= k < hi)%nat ->
    exists g : Z, d !! k = Some g /\ within5 g x = true.

(** The three ways the scan ends. *)
Inductive prune_outcome (lineset : list Z) : list Z -> Prop :=
  | prune_unchanged :
      prune_outcome lineset lineset
  | prune_run (s : nat) (x : Z) :
      np_diff lineset !! s = Some x ->
      matches_between (np_diff lineset) x (S s) (s + 6) ->
      prune_outcome lineset (slice s (s + 7) lineset)
  | prune_initial_run :
      matches_between (np_diff lineset) 0 0 5 ->
      prune_outcome lineset (slice 0 6 lineset).

(** The state of the scan before gap [i]: either no gap has failed the test
    yet and the reference is still the initial 0, or the reference is the
    gap at [start_pos] and the [cnt] gaps after it matched. *)
Definition prune_state (d : list Z) (i : nat) (x : Z) (cnt start_pos : nat)
    : Prop :=
  (start_pos = 0%nat /\ x = 0 /\ cnt = i /\ matches_between d 0 0 i)
  \/ (d !! start_pos = Some x /\ i = (S start_pos + cnt)%nat /\
      matches_between d x (S start_pos) i).

(** No character of [s] is the separator. *)
Definition free_of (sep : ascii) (s : string) : Prop :=
  Forall (fun c => c <> sep) (list_ascii_of_string s).

(** What the loop needs of one axis: for each of the eight cells, two
    consecutive boundaries inside [0, total], the second beyond the
    first. *)
Definition axis_ok (sets : list Z) (total : Z) : Prop :=
  forall k : nat, (k < 8)%nat ->
    exists c1 c2 : Z,
      sets !! k = Some c1 /\ sets !! S k = Some c2 /\
      0 <= c1 /\ c1 < c2 /\ c2 <= total.

(** ** skeletonize_1d in closed form *)

(** Sample [i] after the forward pass: zero when it is not above its right
    neighbour (both read from the input), itself otherwise; the last sample
    is never touched. *)
Definition forward_value (arr : list Q) (i : nat) : option Q :=
  a ← arr !! i;
  match arr !! S i with
  | Some b => Some (if Qle_bool a b then 0%Q else a)
  | None => Some a
  end.

(** Sample [i] after both passes: the reverse pass zeroes it when its left
    neighbour, as the forward pass left it, is greater. *)
Definition skeleton_value (arr : list Q) (i : nat) : option Q :=
  match i with
  | O => forward_value arr 0
  | S j =>
      match forward_value arr j, forward_value arr (S j) with
      | Some a, Some b => Some (if Qlt_bool b a then 0%Q else b)
      | _, other => other
      end
  end.

(** Sample [i] of [arr] is a peak of value [v]: above its right neighbour,
    if any, and, when it has a left neighbour, not below it and not
    negative. *)
Definition peak_at (arr : list Q) (i : nat) (v : Q) : Prop :=
  arr !! i = Some v /\
  (forall b, arr !! S i = Some b -> (b < v)%Q) /\
  (forall j a, i = S j -> arr !! j = Some a -> (a <= v)%Q /\ (0 <= v)%Q).

(** ** Naming the tiles *)

(** [letters = 'ABCDEFGH']. *)
Definition letters : list ascii := list_ascii_of_string "ABCDEFGH".

(** The board coordinate the script prints and saves tile [i] under:
    [letters[i % 8]] and [i / 8 + 1], the latter a float that the ["%d"]
    format truncates. *)
Definition square_name (i : nat) : option (ascii * nat) :=
  letter ← letters !! (i mod 8)%nat;
  Some (letter, (i / 8 + 1)%nat).

(** ** File names from FEN strings *)

(** [s.replace(old, new)] for one-character [old] and [new]. *)
Fixpoint replace_char (old new : ascii) (s : string) : string :=
  match s with
  | EmptyString => EmptyString
  | String c rest =>
      String (if Ascii.eqb c old then new else c) (replace_char old new rest)
  end.

(** Seven lines, the first at [first], each [gap] pixels after the one
    before. *)
Definition evenly_spaced (first gap : Z) : list Z :=
  map (fun k => first + Z.of_nat k * gap) (seq 0 7).

(** ** Convolution kernels and morphology *)

(** The tensors of this part are [float32] images with integer values
    (grey levels, and the 0/1 images the morphological operators are meant
    for); every sum formed below stays far inside the range where
    [float32] arithmetic on integers is exact, so the values are modelled
    as [Z]. *)

(** The pixel at row [r], column [c], zero outside the image: the ['SAME']
    padding of TensorFlow. *)
Definition at0 (x : list (list Z)) (r c : Z) : Z :=
  if (r <? 0) || (c <? 0) then 0
  else default 0 (row ← x !! Z.to_nat r; row !! Z.to_nat c).

(** The image [f r c] of shape [(h, w)]. *)
Definition table (h w : nat) (f : Z -> Z -> Z) : list (list Z) :=
  map (fun r => map (fun c => f (Z.of_nat r) (Z.of_nat c)) (seq 0 w)) (seq 0 h).

(** The cells of the input under a [kh] by [kw] kernel placed for output
    cell [(r, c)], paired with the kernel index: TensorFlow pads
    [(k - 1) / 2] cells before each axis at stride 1. *)
Definition window (kh kw : nat) (r c : Z) : list (Z * Z * (Z * Z)) :=
  i ← seq 0 kh; j ← seq 0 kw;
  [(r + Z.of_nat i - Z.of_nat ((kh - 1) / 2),
    c + Z.of_nat j - Z.of_nat ((kw - 1) / 2),
    (Z.of_nat i, Z.of_nat j))].

(** [simple_conv(x, k)]: [tf.nn.depthwise_conv2d] with one channel, stride 1
    and ['SAME'] padding, a cross-correlation with the kernel. *)
Definition simple_conv (x k : list (list Z)) : list (list Z) :=
  table (nrows x) (ncols x)
    (fun r c =>
       sumZ (map (fun '(y, x', (i, j)) => at0 x y x' * at0 k i j)
                 (window (nrows k) (ncols k) r c))).

Definition gradientx (x : list (list Z)) : list (list Z) :=
  simple_conv x [[-1; 0; 1]; [-1; 0; 1]; [-1; 0; 1]].

Definition gradienty (x : list (list Z)) : list (list Z) :=
  simple_conv x [[-1; -1; -1]; [0; 0; 0]; [1; 1; 1]].

Definition corners (x : list (list Z)) : list (list Z) :=
  simple_conv x [[-1; 0; 1]; [0; 0; 0]; [1; 0; -1]].

(** [tf.clip_by_value(v, lo, hi)] on one value. *)
Definition clip (v lo hi : Z) : Z := Z.min (Z.max v lo) hi.

(** [np.ones([size, size])]. *)
Definition ones (size : nat) : list (list Z) := replicate size (replicate size 1).

Definition dilate (x : list (list Z)) (size : nat) : list (list Z) :=
  map (map (fun v => clip v 1 2 - 1)) (simple_conv x (ones size)).

Definition erode (x : list (list Z)) (size : nat) : list (list Z) :=
  let n := Z.of_nat (size * size) in
  map (map (fun v => clip v (n - 1) n - (n - 1))) (simple_conv x (ones size)).

Definition opening (x : list (list Z)) (size : nat) : list (list Z) :=
  dilate (erode x size) size.

Definition closing (x : list (list Z)) (size : nat) : list (list Z) :=
  erode (dilate x size) size.

(** Every cell is 0 or 1. *)
Definition binary (x : list (list Z)) : Prop :=
  Forall (Forall (fun v => v = 0 \/ v = 1)) x.

(** The cells of [x] under the [size] by [size] window of output cell
    [(r, c)]. *)
Definition window_values (x : list (list Z)) (size : nat) (r c : Z) : list Z :=
  map (fun '(y, x', _) => at0 x y x') (window size size r c).

(** [skeleton(x, size)]: the calls inside take the default size 3, the
    argument [size] is not used. *)
Definition skeleton (x : list (list Z)) (size : nat) : list (list Z) :=
  zip_with (zip_with (fun a b => clip (a - b) 0 1))
           (erode x 3) (opening (erode x 3) 3).

(** ** The Hough response curves *)

(** The two sums of a line are sums of integers, exact in [float32]; their
    product and its quotient by the squared side are rounded there and
    exact here.  What is proved of a response below is its sign, which the
    rounding keeps, and that it is zero. *)

(** Column [c] of an image, top to bottom. *)
Definition column (m : list (list Z)) (c : nat) : list Z :=
  map (fun row => default 0 (row !! c)) m.

(** The product of the summed positive part and the summed negated
    negative part of a line of gradients, each clipped to 255:
    [reduce_sum(clip(D, 0, 255)) * reduce_sum(-clip(D, -255, 0))]. *)
Definition alternation (line : list Z) : Z :=
  sumZ (map (fun v => clip v 0 255) line)
  * sumZ (map (fun v => - clip v (-255) 0) line).

(** [hough_Dx]: per column of the x gradient, divided by the squared
    number of rows. *)
Definition hough_Dx (a : list (list Z)) : list Q :=
  let dx := gradientx a in
  map (fun c => Qmake (alternation (column dx c))
                      (Z.to_pos (Z.of_nat (nrows a * nrows a))))
      (seq 0 (ncols a)).

(** [hough_Dy]: per row of the y gradient, divided by the squared number
    of columns. *)
Definition hough_Dy (a : list (list Z)) : list Q :=
  map (fun row => Qmake (alternation row)
                        (Z.to_pos (Z.of_nat (ncols a * ncols a))))
      (gradienty a).

(** ** From the image to the detection *)

(** [tf.reduce_max] of a curve.  The maximum of no sample at all is
    [-inf], which no rational renders; the script never gets that far with
    it, [np.convolve] raising on the empty curve. *)
Definition reduce_max (l : list Q) : option Q :=
  match l with
  | [] => None
  | x :: rest =>
      Some (fold_left (fun m v => if Qlt_bool m v then v else m) rest x)
  end.

(** [tf.reduce_max(hough) * 3 / 5]. *)
Definition hough_thresh (hd : list Q) : option Q :=
  m ← reduce_max hd; Some (m * 3 / 5)%Q.

(** The script from the grey-level image to the detection result: the two
    response curves, their thresholds, and the two calls of
    [getChessLines]. *)
Definition board_detection (gausswin : list Q) (a : list (list Z))
    : option (list Z * list Z * bool) :=
  let hdx := hough_Dx a in
  let hdy := hough_Dy a in
  tx ← hough_thresh hdx;
  ty ← hough_thresh hdy;
  detection_script gausswin hdx hdy tx ty.

(** 1 inside [0, n), 0 outside. *)
Definition inside (n : nat) (y : Z) : Z :=
  if (0 <=? y) && (y <? Z.of_nat n) then 1 else 0.

(** ** Concrete inputs *)

(** An [h] by [w] image whose pixel at row [y], column [x] is [y + x]. *)
Definition ramp_image (h w : nat) : list (list Z) :=
  map (fun y => map (fun x => Z.of_nat (y + x)) (seq 0 w)) (seq 0 h).

Definition lines_5 : list Z := [5; 10; 15; 20; 25; 30; 35].
Definition lines_10 : list Z := [10; 20; 30; 40; 50; 60; 70].

(** The stack [getChessTiles] returns for the 40 by 40 ramp with a line
    every five pixels on both axes.  Integer intensities in [0, 255] convert
    to themselves. *)
Definition squares_40 : list tile :=
  Eval vm_compute in
    default [] (getChessTiles Z id (ramp_image 40 40) lines_5 lines_5).

(** A five by five binary image: a three by three block of set cells
    inside a border of unset ones. *)
Definition blob_image : list (list Z) :=
  [[0; 0; 0; 0; 0];
   [0; 1; 1; 1; 0];
   [0; 1; 1; 1; 0];
   [0; 1; 1; 1; 0];
   [0; 0; 0; 0; 0]].

(** * Properties *)

(** ** Strictly increasing arrays and slices *)

Lemma slice_increasing (lo hi : nat) (l : list Z) :
  increasing l -> increasing (slice lo hi l).
Proof.
  intros Hl. unfold slice.
  rewrite <- (take_drop hi l) in Hl.
  apply StronglySorted_app_1_l in Hl.
  rewrite <- (take_drop lo (take hi l)) in Hl.
  by apply StronglySorted_app_1_r in Hl.
Qed.

Lemma slice_all {A} (l : list A) : slice 0 (length l) l = l.
Proof. unfold slice. by rewrite drop_0, firstn_all. Qed.

Lemma slice_length {A} (lo hi : nat) (l : list A) :
  (lo <= hi <= length l)%nat -> length (slice lo hi l) = (hi - lo)%nat.
Proof. intros H. unfold slice. rewrite length_drop, length_take. lia. Qed.

Lemma slice_app {A} (lo mid hi : nat) (l : list A) :
  (lo <= mid <= hi)%nat -> (hi <= length l)%nat ->
  slice lo mid l ++ slice mid hi l = slice lo hi l.
Proof.
  intros H1 H2. unfold slice.
  replace hi with (mid + (hi - mid))%nat at 2 by lia.
  rewrite <- (take_take_drop l mid (hi - mid)).
  rewrite drop_app_le by (rewrite length_take; lia).
  f_equal.
  replace hi with (mid + (hi - mid))%nat at 1 by lia.
  rewrite <- (take_take_drop l mid (hi - mid)).
  rewrite drop_app_ge by (rewrite length_take; lia).
  rewrite length_take. replace (mid - mid `min` length l)%nat with 0%nat by lia.
  by rewrite drop_0.
Qed.

Lemma slice_Forall {A} (P : A -> Prop) (lo hi : nat) (l : list A) :
  Forall P l -> Forall P (slice lo hi l).
Proof. intros H. unfold slice. by apply Forall_drop, Forall_take. Qed.

Lemma where_from_lower (i : Z) (arr : list Q) :
  Forall (fun p => i <= p) (where_from i arr).
Proof.
  revert i. induction arr as [|q arr IH]; intros i; simpl; [constructor|].
  assert (Forall (fun p => i <= p) (where_from (i + 1) arr)) as Hrest.
  { eapply Forall_impl; [apply IH|]. simpl. lia. }
  destruct (Qeq_bool q 0); [done|]. constructor; [lia|done].
Qed.

Lemma where_from_increasing (i : Z) (arr : list Q) :
  increasing (where_from i arr).
Proof.
  revert i. induction arr as [|q arr IH]; intros i; simpl; [constructor|].
  destruct (Qeq_bool q 0); [apply IH|].
  constructor; [apply IH|].
  eapply Forall_impl; [apply where_from_lower|]. simpl. lia.
Qed.

Lemma np_where_increasing (arr : list Q) : increasing (np_where arr).
Proof. apply where_from_increasing. Qed.

(** ** pruneLines returns a contiguous slice *)

Lemma pruneLines_loop_slice lineset linediff i x cnt start_pos :
  exists lo hi : nat,
    pruneLines_loop lineset linediff i x cnt start_pos = slice lo hi lineset.
Proof.
  revert i x cnt start_pos.
  induction linediff as [|line rest IH]; intros i x cnt start_pos;
    cbn [pruneLines_loop].
  - exists 0%nat, (length lineset). by rewrite slice_all.
  - destruct (within5 line x); [destruct (Nat.eqb (S cnt) 5)|];
      [by eauto|apply IH..].
Qed.

Lemma pruneLines_slice lineset :
  exists lo hi : nat, pruneLines lineset = slice lo hi lineset.
Proof. apply pruneLines_loop_slice. Qed.

Lemma pruneLines_increasing lineset :
  increasing lineset -> increasing (pruneLines lineset).
Proof.
  intros H. destruct (pruneLines_slice lineset) as (lo & hi & ->).
  by apply slice_increasing.
Qed.

(** ** When the blur raises *)

Lemma np_convolve_same_is_Some (a v : list Q) :
  a <> [] -> v <> [] -> is_Some (np_convolve_same a v).
Proof. destruct a, v; intros; try done; simpl; eauto. Qed.

Lemma np_convolve_same_None (a v : list Q) :
  np_convolve_same a v = None <-> a = [] \/ v = [].
Proof.
  destruct a, v; simpl; split; intros H; try done; auto.
  destruct H; done.
Qed.

Lemma candidateLines_None gausswin hd thresh :
  candidateLines gausswin hd thresh = None <-> hd = [] \/ gausswin = [].
Proof.
  unfold candidateLines.
  destruct (np_convolve_same _ gausswin) as [blur|] eqn:E; simpl.
  - split; [done|]. intros H.
    assert (np_convolve_same (map bool_to_Q (binarize hd thresh)) gausswin
            = None) as E'; [|congruence].
    apply np_convolve_same_None. destruct H as [->| ->]; auto.
  - split; [|done]. intros _.
    apply np_convolve_same_None in E as [E|E]; [left|by right].
    unfold binarize in E. by destruct hd.
Qed.

Lemma candidateLines_is_Some gausswin hd thresh :
  gausswin <> [] -> hd <> [] -> is_Some (candidateLines gausswin hd thresh).
Proof.
  intros Hg Hh.
  destruct (candidateLines gausswin hd thresh) eqn:E; [eauto|].
  apply candidateLines_None in E as [?|?]; done.
Qed.

Lemma candidateLines_increasing gausswin hd thresh cand :
  candidateLines gausswin hd thresh = Some cand -> increasing cand.
Proof.
  unfold candidateLines. intros H.
  destruct (np_convolve_same _ gausswin); simplify_eq/=.
  apply np_where_increasing.
Qed.

(** Whether the blur raises does not depend on the threshold. *)
Lemma candidateLines_None_thresh gausswin hd thresh thresh' :
  candidateLines gausswin hd thresh = None ->
  candidateLines gausswin hd thresh' = None.
Proof. rewrite !candidateLines_None. done. Qed.

(** ** np.diff against slicing *)

Lemma np_diff_length (l : list Z) : length (np_diff l) = (length l - 1)%nat.
Proof.
  induction l as [|a [|b t] IH]; [done..|].
  change (np_diff (a :: b :: t)) with ((b - a) :: np_diff (b :: t)).
  simpl in *. lia.
Qed.

Lemma np_diff_drop (n : nat) (l : list Z) :
  np_diff (drop n l) = drop n (np_diff l).
Proof.
  revert l. induction n as [|n IH]; intros l; [by rewrite !drop_0|].
  destruct l as [|a [|b t]]; [done| |].
  - simpl. by rewrite drop_nil.
  - change (np_diff (a :: b :: t)) with ((b - a) :: np_diff (b :: t)).
    simpl. apply IH.
Qed.

Lemma np_diff_take (n : nat) (l : list Z) :
  np_diff (take (S n) l) = take n (np_diff l).
Proof.
  revert l. induction n as [|n IH]; intros l.
  - destruct l as [|a [|b t]]; done.
  - destruct l as [|a [|b t]]; [done..|].
    specialize (IH (b :: t)).
    change (np_diff (a :: b :: t)) with ((b - a) :: np_diff (b :: t)).
    change (take (S (S n)) (a :: b :: t)) with (a :: b :: take n t).
    change (take (S n) (b :: t)) with (b :: take n t) in IH.
    change (np_diff (a :: b :: take n t))
      with ((b - a) :: np_diff (b :: take n t)).
    by rewrite IH.
Qed.

Lemma np_diff_slice (lo hi : nat) (l : list Z) :
  np_diff (slice lo (S hi) l) = slice lo hi (np_diff l).
Proof. unfold slice. by rewrite np_diff_drop, np_diff_take. Qed.

(** ** What pruneLines returns *)

Lemma matches_between_snoc d x lo hi g :
  matches_between d x lo hi -> d !! hi = Some g -> within5 g x = true ->
  matches_between d x lo (S hi).
Proof.
  intros H Hg Hw k Hk. destruct (decide (k = hi)) as [->|]; [eauto|].
  apply H. lia.
Qed.

Lemma pruneLines_loop_outcome lineset rest i x cnt start_pos :
  drop i (np_diff lineset) = rest ->
  prune_state (np_diff lineset) i x cnt start_pos ->
  prune_outcome lineset (pruneLines_loop lineset rest i x cnt start_pos).
Proof.
  revert i x cnt start_pos.
  induction rest as [|line rest IH]; intros i x cnt start_pos Hd Hst;
    cbn [pruneLines_loop]; [constructor|].
  assert (np_diff lineset !! i = Some line) as Hi.
  { rewrite <- (Nat.add_0_r i), <- lookup_drop, Hd. done. }
  assert (drop (S i) (np_diff lineset) = rest) as Hd'.
  { rewrite (drop_S _ _ _ Hi) in Hd. by injection Hd. }
  destruct (within5 line x) eqn:Hw.
  - destruct (Nat.eqb (S cnt) 5) eqn:Hc.
    + apply Nat.eqb_eq in Hc.
      destruct Hst as [(-> & -> & <- & Hm)|(Hs & -> & Hm)].
      * assert (cnt = 4%nat) as -> by lia.
        apply prune_initial_run. by eapply matches_between_snoc.
      * assert (cnt = 4%nat) as -> by lia.
        replace (S start_pos + 4 + 2)%nat with (start_pos + 7)%nat by lia.
        apply (prune_run _ _ x); [done|].
        replace (start_pos + 6)%nat with (S (S start_pos + 4)) by lia.
        by eapply matches_between_snoc.
    + apply IH; [done|].
      destruct Hst as [(-> & -> & <- & Hm)|(Hs & -> & Hm)].
      * left. repeat split; try done. by eapply matches_between_snoc.
      * right. repeat split; [done|lia|].
        by eapply matches_between_snoc.
  - apply IH; [done|]. right. repeat split; [done|lia|].
    intros k Hk. lia.
Qed.

Lemma pruneLines_outcome lineset : prune_outcome lineset (pruneLines lineset).
Proof.
  apply pruneLines_loop_outcome; [by rewrite drop_0|].
  left. repeat split. intros k Hk. lia.
Qed.

Lemma matches_between_Forall d x lo n :
  matches_between d x lo (lo + n) ->
  length (slice lo (lo + n) d) = n /\
  Forall (fun g => within5 g x = true) (slice lo (lo + n) d).
Proof.
  intros H. unfold slice. split.
  - rewrite length_drop, length_take.
    destruct n as [|n]; [lia|].
    destruct (H (lo + n)%nat) as (g & Hg%lookup_lt_Some & _); lia.
  - apply Forall_lookup. intros k g.
    rewrite lookup_drop. intros [Hg Hk]%lookup_take_Some.
    destruct (H (lo + k)%nat) as (g' & Hg' & Hw); [lia|]. congruence.
Qed.

(** What [pruneLines] returns, for every input: the input itself; or seven
    contiguous positions whose five later gaps each match the first; or the
    first six positions, when the first five gaps all match the initial
    reference gap 0. *)
Theorem pruneLines_cases (lineset : list Z) :
  pruneLines lineset = lineset
  \/ (exists s : nat,
        pruneLines lineset = slice s (s + 7) lineset /\
        length (pruneLines lineset) = 7%nat /\
        consistent_gaps (pruneLines lineset))
  \/ (pruneLines lineset = slice 0 6 lineset /\
      length (pruneLines lineset) = 6%nat /\
      Forall (fun g => within5 g 0 = true) (np_diff (pruneLines lineset))).
Proof.
  destruct (pruneLines_outcome lineset) as [|s x Hs Hm|Hm]; [by left| |].
  - right; left. exists s. split; [done|].
    assert (matches_between (np_diff lineset) x (S s) (S s + 5)) as Hm'
      by (replace (S s + 5)%nat with (s + 6)%nat by lia; done).
    apply matches_between_Forall in Hm' as [Hlen Hf].
    destruct (Hm (s + 5)%nat) as (g & Hg%lookup_lt_Some & _); [lia|].
    rewrite np_diff_length in Hg.
    split.
    + unfold slice. rewrite length_drop, length_take. lia.
    + unfold consistent_gaps.
      replace (s + 7)%nat with (S (s + 6)) by lia.
      rewrite np_diff_slice. unfold slice in *.
      assert (take (s + 6) (np_diff lineset) !! s = Some x) as Hx.
      { apply lookup_take_Some. split; [done|lia]. }
      rewrite (drop_S _ _ _ Hx).
      replace (S s + 5)%nat with (s + 6)%nat in * by lia. done.
  - right; right. split; [done|].
    destruct (Hm 4%nat) as (g & Hg%lookup_lt_Some & _); [lia|].
    apply (matches_between_Forall _ _ 0 5) in Hm as [Hlen Hf].
    rewrite np_diff_length in Hg.
    split.
    + unfold slice. rewrite length_drop, length_take. lia.
    + change 6%nat with (S 5). by rewrite np_diff_slice.
Qed.

(** ** checkMatch against the existence of a run *)

(** A positive answer of [checkMatch] is sound: the counter stands at five
    when the scan ends. *)
Lemma checkMatch_run_of_5 (lineset : list Z) :
  checkMatch lineset = true -> run_of_5 lineset.
Proof.
  unfold checkMatch, run_of_5. intros H%Nat.eqb_eq.
  exists (length (np_diff lineset)). by rewrite firstn_all.
Qed.

(** C3 at its failing inputs.  Seven lines four pixels apart, as
    [pruneLines] returns them from [0, 50, 54, ..., 74]: all six gaps match
    the reference gap, the counter ends at six, and the answer is false.
    Nine evenly spaced lines: seven gaps match, the answer is false.  Six
    matching gaps followed by a different one: the counter is reset by the
    last gap, the answer is false.  A run of five exists in all three. *)
Theorem checkMatch_misses_runs :
  pruneLines [0; 50; 54; 58; 62; 66; 70; 74] = [50; 54; 58; 62; 66; 70; 74] /\
  checkMatch [50; 54; 58; 62; 66; 70; 74] = false /\
  run_of_5 [50; 54; 58; 62; 66; 70; 74] /\
  checkMatch [0; 50; 100; 150; 200; 250; 300; 350; 400] = false /\
  run_of_5 [0; 50; 100; 150; 200; 250; 300; 350; 400] /\
  checkMatch [0; 50; 100; 150; 200; 250; 300; 500] = false /\
  run_of_5 [0; 50; 100; 150; 200; 250; 300; 500].
Proof.
  repeat split; try reflexivity.
  - by exists 5%nat.
  - by exists 6%nat.
  - by exists 6%nat.
Qed.

(** ** pruneLines *)

(** C2 at its failing input.  Seven strictly increasing positions four
    pixels apart: the first five gaps match the initial reference gap 0, so
    the scan returns [lineset[0:6]], six positions with five gaps, neither
    the input nor a run of seven. *)
Theorem pruneLines_returns_six :
  increasing [0; 4; 8; 12; 16; 20; 24] /\
  pruneLines [0; 4; 8; 12; 16; 20; 24] = [0; 4; 8; 12; 16; 20] /\
  length (pruneLines [0; 4; 8; 12; 16; 20; 24]) = 6%nat /\
  pruneLines [0; 4; 8; 12; 16; 20; 24] <> [0; 4; 8; 12; 16; 20; 24].
Proof.
  split; [|by repeat split].
  repeat (constructor; [|repeat constructor]); constructor.
Qed.

(** ** The match flag of getChessLines *)

(** On non-empty curves nothing raises. *)
Lemma getChessLines_returns (gausswin hdx hdy : list Q) (tx ty : Q) :
  gausswin <> [] -> hdx <> [] -> hdy <> [] ->
  exists r, getChessLines gausswin hdx hdy tx ty = Some r.
Proof.
  intros Hg Hx Hy. unfold getChessLines.
  destruct (candidateLines_is_Some gausswin hdx tx Hg Hx) as [cx ->].
  destruct (candidateLines_is_Some gausswin hdy ty Hg Hy) as [cy ->].
  simpl. eauto.
Qed.

(** C1 (as amended).  For every window and every pair of non-empty response
    curves, with any thresholds, [getChessLines] returns: its two line sets
    are the pruned candidate positions of each axis, and its flag is true
    exactly when both pruned sets have length 7 and both pass
    [checkMatch]. *)
Theorem getChessLines_match_flag (gausswin hdx hdy : list Q) (tx ty : Q) :
  gausswin <> [] -> hdx <> [] -> hdy <> [] ->
  exists (cand_x cand_y : list Z) (is_match : bool),
    candidateLines gausswin hdx tx = Some cand_x /\
    candidateLines gausswin hdy ty = Some cand_y /\
    getChessLines gausswin hdx hdy tx ty
      = Some (pruneLines cand_x, pruneLines cand_y, is_match) /\
    (is_match = true <->
       length (pruneLines cand_x) = 7%nat /\
       length (pruneLines cand_y) = 7%nat /\
       checkMatch (pruneLines cand_x) = true /\
       checkMatch (pruneLines cand_y) = true).
Proof.
  intros Hg Hx Hy.
  destruct (candidateLines_is_Some gausswin hdx tx Hg Hx) as [cx Ex].
  destruct (candidateLines_is_Some gausswin hdy ty Hg Hy) as [cy Ey].
  exists cx, cy. eexists. split; [done|]. split; [done|].
  unfold getChessLines. rewrite Ex, Ey. simpl. split; [reflexivity|].
  rewrite !andb_true_iff, !Nat.eqb_eq. tauto.
Qed.

Lemma getChessLines_match_flag_witness :
  exists (cand_x cand_y : list Z) (is_match : bool),
    candidateLines gausswin21 board_curve 96 = Some cand_x /\
    candidateLines gausswin21 board_curve 96 = Some cand_y /\
    getChessLines gausswin21 board_curve board_curve 96 96
      = Some (pruneLines cand_x, pruneLines cand_y, is_match) /\
    (is_match = true <->
       length (pruneLines cand_x) = 7%nat /\
       length (pruneLines cand_y) = 7%nat /\
       checkMatch (pruneLines cand_x) = true /\
       checkMatch (pruneLines cand_y) = true).
Proof.
  apply (getChessLines_match_flag gausswin21 board_curve board_curve 96 96);
    vm_compute; discriminate.
Defined.

(** C1, as stated, fails on an empty response curve: the blur raises, so
    nothing is returned, flag included. *)
Lemma getChessLines_empty_curve_raises :
  ~ exists r, getChessLines gausswin21 [1; 2; 3]%Q [] 0 0 = Some r.
Proof. intros [r H]. vm_compute in H. discriminate. Qed.

(** ** The two detection attempts *)

(** The script keeps the second attempt, whatever the first returned, and
    raises exactly when that attempt raises. *)
Lemma detection_script_eq (gausswin hdx hdy : list Q) (tx ty : Q) :
  detection_script gausswin hdx hdy tx ty
  = getChessLines gausswin hdx hdy (tx * (9 # 10))%Q (ty * (9 # 10))%Q.
Proof.
  unfold detection_script.
  destruct (getChessLines gausswin hdx hdy tx ty) as [r|] eqn:E; [done|].
  simpl. symmetry. unfold getChessLines in *.
  destruct (candidateLines gausswin hdx tx) as [cx|] eqn:Ex.
  - destruct (candidateLines gausswin hdy ty) as [cy|] eqn:Ey; [done|].
    rewrite (candidateLines_None_thresh _ _ _ (ty * (9 # 10))%Q Ey).
    by destruct (candidateLines gausswin hdx (tx * (9 # 10))%Q).
  - by rewrite (candidateLines_None_thresh _ _ _ (tx * (9 # 10))%Q Ex).
Qed.

(** C7 (as amended).  On non-empty response curves the script raises
    nothing and ends with line sets and a match flag; it makes both
    attempts unconditionally and keeps the second: whatever the first
    attempt returned, the final line sets and flag are those of
    [getChessLines] at the thresholds scaled by 0.9. *)
Theorem detection_script_is_second_attempt
    (gausswin hdx hdy : list Q) (tx ty : Q) :
  gausswin <> [] -> hdx <> [] -> hdy <> [] ->
  detection_script gausswin hdx hdy tx ty
  = getChessLines gausswin hdx hdy (tx * (9 # 10))%Q (ty * (9 # 10))%Q /\
  exists (lines_x lines_y : list Z) (is_match : bool),
    detection_script gausswin hdx hdy tx ty
    = Some (lines_x, lines_y, is_match).
Proof.
  intros Hg Hx Hy. split; [apply detection_script_eq|].
  rewrite detection_script_eq.
  destruct (getChessLines_returns gausswin hdx hdy
              (tx * (9 # 10))%Q (ty * (9 # 10))%Q Hg Hx Hy)
    as ([[lx ly] m] & E).
  rewrite E. by exists lx, ly, m.
Qed.

Lemma detection_script_is_second_attempt_witness :
  detection_script gausswin21 board_curve board_curve 96 96
  = getChessLines gausswin21 board_curve board_curve
      (96 * (9 # 10))%Q (96 * (9 # 10))%Q /\
  exists (lines_x lines_y : list Z) (is_match : bool),
    detection_script gausswin21 board_curve board_curve 96 96
    = Some (lines_x, lines_y, is_match).
Proof.
  apply (detection_script_is_second_attempt
           gausswin21 board_curve board_curve 96 96);
    vm_compute; discriminate.
Defined.

(** C7, as stated, fails: on this curve the first attempt finds the board,
    the second does not, and the script reports no board, where a retry
    made only after a failure reports one. *)
Lemma detection_script_not_a_retry :
  getChessLines gausswin21 board_curve board_curve 96 96
    = Some ([30; 60; 90; 120; 150; 180; 210],
            [30; 60; 90; 120; 150; 180; 210], true) /\
  detect_with_retry gausswin21 board_curve board_curve 96 96
    = Some ([30; 60; 90; 120; 150; 180; 210],
            [30; 60; 90; 120; 150; 180; 210], true) /\
  detection_script gausswin21 board_curve board_curve 96 96
    = Some ([30; 60; 90; 105; 120; 150; 180; 210],
            [30; 60; 90; 105; 120; 150; 180; 210], false) /\
  detection_script gausswin21 board_curve board_curve 96 96
    <> detect_with_retry gausswin21 board_curve board_curve 96 96.
Proof.
  assert (getChessLines gausswin21 board_curve board_curve 96 96
    = Some ([30; 60; 90; 120; 150; 180; 210],
            [30; 60; 90; 120; 150; 180; 210], true)) as H1
    by (vm_compute; reflexivity).
  assert (detection_script gausswin21 board_curve board_curve 96 96
    = Some ([30; 60; 90; 105; 120; 150; 180; 210],
            [30; 60; 90; 105; 120; 150; 180; 210], false)) as H2
    by (vm_compute; reflexivity).
  assert (detect_with_retry gausswin21 board_curve board_curve 96 96
    = Some ([30; 60; 90; 120; 150; 180; 210],
            [30; 60; 90; 120; 150; 180; 210], true)) as H3
    by (unfold detect_with_retry; rewrite H1; reflexivity).
  split; [exact H1|]. split; [exact H3|]. split; [exact H2|].
  rewrite H2, H3. discriminate.
Qed.

(** ** Line positions are strictly increasing *)

(** C8.  Whatever [getChessLines] returns, the candidate positions of each
    axis (before pruning) are strictly increasing, each returned line set
    is a contiguous slice of its candidates, and each returned line set is
    strictly increasing. *)
Theorem getChessLines_increasing (gausswin hdx hdy : list Q) (tx ty : Q)
    (lines_x lines_y : list Z) (is_match : bool) :
  getChessLines gausswin hdx hdy tx ty = Some (lines_x, lines_y, is_match) ->
  exists cand_x cand_y : list Z,
    candidateLines gausswin hdx tx = Some cand_x /\
    candidateLines gausswin hdy ty = Some cand_y /\
    increasing cand_x /\ increasing cand_y /\
    (exists lo hi : nat, lines_x = slice lo hi cand_x) /\
    (exists lo hi : nat, lines_y = slice lo hi cand_y) /\
    increasing lines_x /\ increasing lines_y.
Proof.
  unfold getChessLines. intros H.
  destruct (candidateLines gausswin hdx tx) as [cx|] eqn:Ex; [|done].
  destruct (candidateLines gausswin hdy ty) as [cy|] eqn:Ey; [|done].
  simpl in H. injection H as <- <- _.
  pose proof (candidateLines_increasing _ _ _ _ Ex) as Hcx.
  pose proof (candidateLines_increasing _ _ _ _ Ey) as Hcy.
  exists cx, cy. repeat split; try done.
  - apply pruneLines_slice.
  - apply pruneLines_slice.
  - by apply pruneLines_increasing.
  - by apply pruneLines_increasing.
Qed.

Lemma getChessLines_increasing_witness :
  exists cand_x cand_y : list Z,
    candidateLines gausswin21 board_curve (432 # 5) = Some cand_x /\
    candidateLines gausswin21 board_curve 96 = Some cand_y /\
    increasing cand_x /\ increasing cand_y /\
    (exists lo hi : nat,
        [30; 60; 90; 105; 120; 150; 180; 210] = slice lo hi cand_x) /\
    (exists lo hi : nat, [30; 60; 90; 120; 150; 180; 210] = slice lo hi cand_y) /\
    increasing [30; 60; 90; 105; 120; 150; 180; 210] /\
    increasing [30; 60; 90; 120; 150; 180; 210].
Proof.
  apply (getChessLines_increasing gausswin21 board_curve board_curve
           (432 # 5) 96 _ _ false).
  vm_compute. reflexivity.
Defined.

(** ** Loops that may raise *)

(** An invariant indexed by the iterations already made. *)
Lemma for_each_invariant {S I} (body : S -> I -> option S)
    (P : list I -> S -> Prop) (idx : list I) (s s' : S) :
  P [] s ->
  (forall done i rest s1 s2,
     idx = done ++ i :: rest -> P done s1 -> body s1 i = Some s2 ->
     P (done ++ [i]) s2) ->
  for_each body idx s = Some s' ->
  P idx s'.
Proof.
  intros H0 Hstep.
  assert (forall todo done s1,
            idx = done ++ todo -> P done s1 ->
            for_each body todo s1 = Some s' -> P idx s') as Hgen.
  { induction todo as [|i todo IH]; intros done s1 Hidx HP Hrun.
    - rewrite app_nil_r in Hidx. simpl in Hrun. congruence.
    - simpl in Hrun. destruct (body s1 i) as [s2|] eqn:Hb; [|done].
      simpl in Hrun. apply (IH (done ++ [i]) s2); [|by eauto|done].
      by rewrite <- app_assoc. }
  apply (Hgen idx []); done.
Qed.

(** A loop whose body never raises returns. *)
Lemma for_each_is_Some {S I} (body : S -> I -> option S)
    (P : S -> Prop) (idx : list I) (s : S) :
  P s ->
  (forall s1 i, i ∈ idx -> P s1 -> exists s2, body s1 i = Some s2 /\ P s2) ->
  exists s', for_each body idx s = Some s' /\ P s'.
Proof.
  revert s. induction idx as [|i idx IH]; intros s HP Hbody; [by eauto|].
  destruct (Hbody s i) as (s2 & Hb & HP2); [by left|done|].
  simpl. rewrite Hb. simpl. apply IH; [done|].
  intros s1 k Hk. apply Hbody. by right.
Qed.

Lemma range_split (n : nat) (done rest : list nat) (i : nat) :
  seq 0 n = done ++ i :: rest -> (i < n)%nat /\ (i ∉ done) /\
  forall k, k ∈ done -> (k < n)%nat.
Proof.
  intros H. pose proof (NoDup_seq 0 n) as Hnd. rewrite H in Hnd.
  apply NoDup_app in Hnd as (_ & Hdis & _).
  assert (forall k, k ∈ done ++ i :: rest -> (k < n)%nat) as Hlt.
  { intros k Hk. rewrite <- H in Hk. apply elem_of_seq in Hk. lia. }
  split; [apply Hlt, elem_of_app; right; by left|]. split.
  - intros Hi. apply (Hdis i Hi). by left.
  - intros k Hk. apply Hlt, elem_of_app. by left.
Qed.

Lemma tile_index_lt (i j : nat) : (i < 8)%nat -> (tile_index i j < 64)%nat.
Proof. unfold tile_index. lia. Qed.

Lemma tile_index_inj (i j i' j' : nat) :
  (i < 8)%nat -> (j < 8)%nat -> (i' < 8)%nat -> (j' < 8)%nat ->
  tile_index i j = tile_index i' j' -> i = i' /\ j = j'.
Proof. unfold tile_index. lia. Qed.

(** ** The order of the tiles *)

Section TileOrder.

Context {pixel : Type} (to_uint8 : pixel -> Z).

(** The inner loop, for a fixed column [i]: afterwards every row of that
    column sits at its index, and every other index is untouched. *)
Lemma column_loop (g : grid pixel) (i : nat) (sq sq' : list tile) :
  (i < 8)%nat -> length sq = 64%nat ->
  for_each (loop_body pixel to_uint8 g i) (seq 0 8) sq = Some sq' ->
  length sq' = 64%nat /\
  (forall j, (j < 8)%nat ->
     exists t, cell_tile pixel to_uint8 g i j = Some t /\
               sq' !! tile_index i j = Some t) /\
  (forall k, (forall j, (j < 8)%nat -> k <> tile_index i j) ->
     sq' !! k = sq !! k).
Proof.
  intros Hi Hlen Hrun.
  pose (P := fun (done : list nat) (s : list tile) =>
    length s = 64%nat /\
    (forall j, j ∈ done ->
       exists t, cell_tile pixel to_uint8 g i j = Some t /\
                 s !! tile_index i j = Some t) /\
    (forall k, (forall j, (j < 8)%nat -> k <> tile_index i j) ->
       s !! k = sq !! k)).
  assert (P (seq 0 8) sq') as (Hl & Hw & Hu).
  { apply (for_each_invariant _ P _ _ _) in Hrun; [done| |].
    - split; [done|]. split; [|done].
      intros j Hj. by apply elem_of_nil in Hj.
    - intros done j rest s1 s2 Hsplit (Hl1 & Hw1 & Hu1) Hb.
      apply range_split in Hsplit as (Hj & Hfresh & Hdone).
      unfold loop_body in Hb.
      destruct (cell_tile pixel to_uint8 g i j) as [t|] eqn:Ht; [|done].
      simpl in Hb. injection Hb as <-.
      split; [|split].
      + by rewrite length_insert.
      + intros j' [Hj'| ->%list_elem_of_singleton]%elem_of_app.
        * destruct (Hw1 j' Hj') as (t' & Ht' & Hs).
          exists t'. split; [done|].
          rewrite list_lookup_insert_ne; [done|].
          intros Heq. apply tile_index_inj in Heq as [_ <-]; auto.
        * exists t. split; [done|].
          apply list_lookup_insert_eq. rewrite Hl1.
          by apply tile_index_lt.
      + intros k Hk. rewrite list_lookup_insert_ne; [by apply Hu1|].
        intros <-. by apply (Hk j). }
  split; [done|]. split; [|done].
  intros j Hj. apply Hw. apply elem_of_seq. lia.
Qed.

(** Both loops: every cell of the grid was extracted without error and
    sits at [tile_index]. *)
Lemma fill_tiles_order (g : grid pixel) (squares : list tile) :
  fill_tiles pixel to_uint8 g = Some squares ->
  length squares = 64%nat /\
  forall i j, (i < 8)%nat -> (j < 8)%nat ->
    exists t, cell_tile pixel to_uint8 g i j = Some t /\
              squares !! tile_index i j = Some t.
Proof.
  unfold fill_tiles.
  destruct ((grid_stepy g <? 0) || (grid_stepx g <? 0)); [done|].
  set (zeros := replicate 64 _). intros Hrun.
  pose (P := fun (done : list nat) (s : list tile) =>
    length s = 64%nat /\
    forall i j, i ∈ done -> (j < 8)%nat ->
      exists t, cell_tile pixel to_uint8 g i j = Some t /\
                s !! tile_index i j = Some t).
  assert (P (seq 0 8) squares) as (Hl & Hw).
  { apply (for_each_invariant _ P _ _ _) in Hrun; [done| |].
    - split; [apply length_replicate|].
      intros i j Hi. by apply elem_of_nil in Hi.
    - intros done i rest s1 s2 Hsplit (Hl1 & Hw1) Hb.
      apply range_split in Hsplit as (Hi & Hfresh & Hdone).
      apply column_loop in Hb as (Hl2 & Hw2 & Hu2); [|done..].
      split; [done|].
      intros i' j [Hi'| ->%list_elem_of_singleton]%elem_of_app Hj.
      + destruct (Hw1 i' j Hi' Hj) as (t & Ht & Hs).
        exists t. split; [done|]. rewrite Hu2; [done|].
        intros j' Hj' Heq. apply tile_index_inj in Heq as [-> _]; auto.
      + by apply Hw2. }
  split; [done|]. intros i j Hi Hj. apply Hw; [|done].
  apply elem_of_seq. lia.
Qed.

(** C5 (as amended).  When [getChessTiles] returns, the stack has 64
    tiles and the cell in row [row], column [col] of the grid (counted
    from the top-left corner of the image) is at index
    [(7 - row) * 8 + col]; consequently index 0 holds the bottom-left
    cell (row 7, column 0) and index 63 the top-right cell (row 0,
    column 7). *)
Theorem getChessTiles_order (a : list (list pixel))
    (lines_x lines_y : list Z) (squares : list tile) :
  getChessTiles pixel to_uint8 a lines_x lines_y = Some squares ->
  exists g : grid pixel,
    tile_grid pixel a lines_x lines_y = Some g /\
    length squares = 64%nat /\
    (forall row col, (row < 8)%nat -> (col < 8)%nat ->
       exists t, cell_tile pixel to_uint8 g col row = Some t /\
                 squares !! ((7 - row) * 8 + col)%nat = Some t) /\
    squares !! 0%nat = cell_tile pixel to_uint8 g 0 7 /\
    squares !! 63%nat = cell_tile pixel to_uint8 g 7 0.
Proof.
  unfold getChessTiles. intros H.
  destruct (tile_grid pixel a lines_x lines_y) as [g|]; [|done].
  simpl in H. apply fill_tiles_order in H as [Hl Hw].
  exists g. split; [done|]. split; [done|]. split.
  - intros row col Hr Hc. by apply Hw.
  - destruct (Hw 0%nat 7%nat) as (t0 & -> & Hs0); [lia..|].
    destruct (Hw 7%nat 0%nat) as (t1 & -> & Hs1); [lia..|].
    done.
Qed.

End TileOrder.

Lemma getChessTiles_order_witness :
  exists g : grid Z,
    tile_grid Z (ramp_image 40 40) lines_5 lines_5 = Some g /\
    length squares_40 = 64%nat /\
    (forall row col, (row < 8)%nat -> (col < 8)%nat ->
       exists t, cell_tile Z id g col row = Some t /\
                 squares_40 !! ((7 - row) * 8 + col)%nat = Some t) /\
    squares_40 !! 0%nat = cell_tile Z id g 0 7 /\
    squares_40 !! 63%nat = cell_tile Z id g 7 0.
Proof.
  apply (getChessTiles_order id (ramp_image 40 40) lines_5 lines_5 squares_40).
  vm_compute. reflexivity.
Defined.

(** C5, as stated, fails: on the 40 by 40 ramp, tile 0 is the bottom-left
    block of the image, not the top-left one, and tile 63 is the top-right
    block, not the bottom-right one. *)
Lemma tile_0_is_not_top_left :
  getChessTiles Z id (ramp_image 40 40) lines_5 lines_5 = Some squares_40 /\
  squares_40 !! 0%nat = Some (py_slice2 35 40 0 5 (ramp_image 40 40)) /\
  squares_40 !! 0%nat <> Some (py_slice2 0 5 0 5 (ramp_image 40 40)) /\
  squares_40 !! 63%nat = Some (py_slice2 0 5 35 40 (ramp_image 40 40)) /\
  squares_40 !! 63%nat <> Some (py_slice2 35 40 35 40 (ramp_image 40 40)) /\
  exists g : grid Z,
    tile_grid Z (ramp_image 40 40) lines_5 lines_5 = Some g /\
    cell_tile Z id g 0 0 = Some (py_slice2 0 5 0 5 (ramp_image 40 40)) /\
    cell_tile Z id g 7 7 = Some (py_slice2 35 40 35 40 (ramp_image 40 40)) /\
    squares_40 !! 0%nat <> cell_tile Z id g 0 0 /\
    squares_40 !! 63%nat <> cell_tile Z id g 7 7.
Proof.
  split; [vm_compute; reflexivity|].
  split; [vm_compute; reflexivity|].
  split; [vm_compute; discriminate|].
  split; [vm_compute; reflexivity|].
  split; [vm_compute; discriminate|].
  eexists. split; [vm_compute; reflexivity|].
  split; [vm_compute; reflexivity|].
  split; [vm_compute; reflexivity|].
  split; vm_compute; discriminate.
Qed.

(** ** The bottom overhang *)

(** C6 at its failing input.  A 78 by 40 image with a vertical line every
    5 pixels and a horizontal line every 10: the steps are 5 and 10, the
    bottom boundary 70 + 10 lies two rows below the image, yet no side is
    padded, because the test adds the x step: 70 + 5 is inside.  With the
    line sets exchanged on a 42 by 80 image the same test pads two rows
    below, although the bottom boundary 35 + 5 lies inside the image. *)
Theorem image_pads_tests_stepx :
  step_size lines_5 = Some 5 /\ step_size lines_10 = Some 10 /\
  nrows (ramp_image 78 40) = 78%nat /\ ncols (ramp_image 78 40) = 40%nat /\
  78 < 70 + 10 /\
  image_pads 5 35 10 70 5 10 78 40 = (0, 0, 0, 0) /\
  35 + 5 < 42 /\
  image_pads 10 70 5 35 10 5 42 80 = (0, 2, 0, 0).
Proof. repeat split; vm_compute; reflexivity. Qed.

(** C4 at its failing input.  Both line sets are strictly increasing, have
    seven positions and pass [checkMatch]; the image is 78 by 40.  The crop
    is two rows short, the cell of column 0, row 7 has shape (8, 5) where
    the stack expects (10, 5), and the assignment raises. *)
Theorem getChessTiles_raises_below_image (to_uint8 : Z -> Z) :
  increasing lines_5 /\ increasing lines_10 /\
  length lines_5 = 7%nat /\ length lines_10 = 7%nat /\
  checkMatch lines_5 = true /\ checkMatch lines_10 = true /\
  (exists g : grid Z,
     tile_grid Z (ramp_image 78 40) lines_5 lines_10 = Some g /\
     grid_stepy g = 10 /\ grid_stepx g = 5 /\
     (nrows <$> cell_slice Z (grid_a2 g) (grid_setsx g) (grid_setsy g)
                   (grid_stepx g) (grid_stepy g) 0 7) = Some 8%nat /\
     cell_tile Z to_uint8 g 0 7 = None) /\
  getChessTiles Z to_uint8 (ramp_image 78 40) lines_5 lines_10 = None.
Proof.
  split; [repeat (constructor; [|repeat constructor]); constructor|].
  split; [repeat (constructor; [|repeat constructor]); constructor|].
  do 4 (split; [reflexivity|]).
  split; [|vm_compute; reflexivity].
  eexists. split; [vm_compute; reflexivity|].
  repeat split; vm_compute; reflexivity.
Qed.

(** ** Shapes *)

Lemma has_shape_nrows {A} r c (m : list (list A)) :
  has_shape r c m -> nrows m = r.
Proof. by intros [? _]. Qed.

Lemma has_shape_ncols {A} r c (m : list (list A)) :
  has_shape r c m -> (0 < r)%nat -> ncols m = c.
Proof.
  intros [Hr Hc] Hpos. destruct m as [|row m]; simpl in *; [lia|].
  by apply Forall_cons in Hc as [? _].
Qed.

Lemma pad_edge_length {A} (before after : nat) (l : list A) :
  l <> [] ->
  exists l', pad_edge before after l = Some l' /\
             length l' = (before + length l + after)%nat /\
             forall x, x ∈ l' -> x ∈ l.
Proof.
  destruct l as [|x l]; [done|]. intros _. simpl. eexists. split; [done|].
  split.
  - rewrite length_app, length_replicate. simpl.
    rewrite length_app, length_replicate. lia.
  - intros y [Hy|Hy]%elem_of_app.
    + apply elem_of_replicate in Hy as [-> _]. by left.
    + change (x :: l ++ _) with ((x :: l) ++ replicate after (default x (last (x :: l)))) in Hy.
      apply elem_of_app in Hy as [Hy|Hy]; [done|].
      apply elem_of_replicate in Hy as [-> _].
      destruct (last (x :: l)) as [z|] eqn:E; simpl; [|by left].
      by apply last_Some_elem_of.
Qed.

Lemma np_pad_edge_shape {A} (pt pb pl pr r c : nat) (m : list (list A)) :
  has_shape r c m -> (0 < r)%nat -> (0 < c)%nat ->
  exists m', np_pad_edge pt pb pl pr m = Some m' /\
             has_shape (pt + r + pb) (pl + c + pr) m'.
Proof.
  intros [Hr Hc] Hrpos Hcpos. unfold np_pad_edge.
  destruct m as [|row0 m0] eqn:Em; [simpl in Hr; lia|]. rewrite <- Em in *.
  clear Em row0 m0.
  assert (exists rows, mapM (pad_edge pl pr) m = Some rows /\
                       Forall (fun row => length row = (pl + c + pr)%nat) rows)
    as (rows & Hrows & Hlen).
  { clear Hr Hrpos. induction Hc as [|row m Hrow _ IH].
    - exists []. by split.
    - destruct IH as (rows & Hrows & Hlen).
      destruct (pad_edge_length pl pr row) as (row' & Hrow' & Hl & _).
      { intros ->. simpl in Hrow. lia. }
      exists (row' :: rows). split.
      + simpl. rewrite Hrow'. simpl. by rewrite Hrows.
      + constructor; [lia|done]. }
  rewrite Hrows. simpl.
  pose proof (length_mapM _ _ _ Hrows) as Hn.
  destruct (pad_edge_length pt pb rows) as (m' & Hm' & Hl & Hin).
  { intros ->. simpl in Hn. lia. }
  exists m'. split; [done|]. split; [lia|].
  apply Forall_forall. intros row Hrow.
  by apply (proj1 (Forall_forall _ _) Hlen), Hin.
Qed.

Lemma norm_index_in_range (n : nat) (i : Z) :
  0 <= i <= Z.of_nat n -> norm_index n i = Z.to_nat i.
Proof.
  intros H. unfold norm_index.
  destruct (Z.ltb_spec i 0); [lia|]. f_equal. lia.
Qed.

Lemma py_slice_length {A} (lo hi : Z) (l : list A) :
  0 <= lo <= hi -> hi <= Z.of_nat (length l) ->
  length (py_slice lo hi l) = Z.to_nat (hi - lo).
Proof.
  intros H1 H2. unfold py_slice.
  rewrite !norm_index_in_range by lia.
  rewrite slice_length; lia.
Qed.

Lemma py_slice_subset {A} (lo hi : Z) (l : list A) (x : A) :
  x ∈ py_slice lo hi l -> x ∈ l.
Proof.
  unfold py_slice, slice. intros H.
  apply list_elem_of_lookup in H as [i Hi].
  rewrite lookup_drop in Hi. apply lookup_take_Some in Hi as [Hi _].
  by eapply list_elem_of_lookup_2.
Qed.

Lemma py_slice2_shape {A} (y1 y2 x1 x2 : Z) (r c : nat) (m : list (list A)) :
  has_shape r c m ->
  0 <= y1 <= y2 -> y2 <= Z.of_nat r ->
  0 <= x1 <= x2 -> x2 <= Z.of_nat c ->
  has_shape (Z.to_nat (y2 - y1)) (Z.to_nat (x2 - x1)) (py_slice2 y1 y2 x1 x2 m).
Proof.
  intros [Hr Hc] Hy1 Hy2 Hx1 Hx2. unfold py_slice2. split.
  - rewrite length_map, py_slice_length; [done|lia..].
  - apply Forall_map, Forall_forall. intros row Hrow%py_slice_subset.
    pose proof (proj1 (Forall_forall _ _) Hc row Hrow) as Hl. simpl in *.
    rewrite py_slice_length; [done|lia..].
Qed.

(** ** Steps and boundaries of a seven-line set *)

Lemma round_half_even_pos (n : Z) : 6 <= n -> 1 <= round_half_even n 6.
Proof.
  intros H. unfold round_half_even.
  destruct (Z.ltb_spec (2 * (n mod 6)) 6); [|destruct (Z.ltb_spec 6 (2 * (n mod 6)));
    [|destruct (Z.even (n / 6))]];
    Z.div_mod_to_equations; lia.
Qed.

Lemma length_7_inv {A} (l : list A) :
  length l = 7%nat ->
  exists a0 a1 a2 a3 a4 a5 a6, l = [a0; a1; a2; a3; a4; a5; a6].
Proof.
  intros H. do 7 (destruct l as [|? l]; [done|]).
  destruct l; [|done]. by repeat eexists.
Qed.

Lemma increasing_cons2 (a b : Z) (l : list Z) :
  increasing (a :: b :: l) -> a < b /\ increasing (b :: l).
Proof.
  intros H. apply StronglySorted_inv in H as [H1 H2].
  apply Forall_cons in H2 as [H2 _]. done.
Qed.

Lemma step_size_7 (a0 a1 a2 a3 a4 a5 a6 : Z) :
  step_size [a0; a1; a2; a3; a4; a5; a6]
  = Some (round_half_even (a6 - a0) 6).
Proof.
  unfold step_size. cbn [np_diff length sumZ fold_right].
  do 2 f_equal. lia.
Qed.

(** The step of a strictly increasing seven-line set is at least one
    pixel. *)
Lemma step_size_increasing (lines : list Z) :
  length lines = 7%nat -> increasing lines ->
  exists step, step_size lines = Some step /\ 1 <= step.
Proof.
  intros (a0 & a1 & a2 & a3 & a4 & a5 & a6 & ->)%length_7_inv Hinc.
  rewrite step_size_7. eexists. split; [done|].
  apply round_half_even_pos.
  do 6 (apply increasing_cons2 in Hinc as [? Hinc]). lia.
Qed.

Lemma relative_sets_ok (lines : list Z) (first lst step padl : Z) :
  length lines = 7%nat -> increasing lines ->
  head lines = Some first -> last lines = Some lst -> 1 <= step ->
  let sets := boundary_sets first lst step padl lines in
  exists s0 sl,
    head sets = Some s0 /\ last sets = Some sl /\
    s0 = first - step + padl /\ sl = lst + step + padl /\
    axis_ok (map (fun v => v - s0) sets) (sl - s0).
Proof.
  intros (a0 & a1 & a2 & a3 & a4 & a5 & a6 & ->)%length_7_inv Hinc Hf Hl Hs.
  injection Hf as <-. injection Hl as <-.
  do 6 (apply increasing_cons2 in Hinc as [? Hinc]).
  do 2 eexists. split; [reflexivity|]. split; [reflexivity|].
  split; [done|]. split; [done|].
  intros k Hk. do 8 (destruct k as [|k]; [do 2 eexists; simpl; repeat split; lia|]).
  lia.
Qed.

Lemma cell_bounds_ok (sets : list Z) (total step : Z) (k : nat) :
  axis_ok sets total -> 1 <= step -> (k < 8)%nat ->
  exists b1 b2 pl pr : Z,
    cell_bounds sets step k = Some (b1, b2, pl, pr) /\
    0 <= b1 /\ b1 < b2 /\ b2 <= total /\ 0 <= pl /\ 0 <= pr /\
    b2 - b1 + pl + pr = step.
Proof.
  intros Hax Hs Hk. destruct (Hax k Hk) as (c1 & c2 & E1 & E2 & ? & ? & ?).
  unfold cell_bounds. rewrite E1, E2. simpl.
  destruct (Z.ltb_spec step (c2 - c1)); [|destruct (Z.ltb_spec (c2 - c1) step)];
    destruct (Nat.eqb k 7); do 4 eexists; (split; [reflexivity|lia]).
Qed.

Lemma image_pads_spec (x0 xl y0 yl stepx stepy h w ply pry plx prx : Z) :
  image_pads x0 xl y0 yl stepx stepy h w = (ply, pry, plx, prx) ->
  0 <= ply /\ 0 <= pry /\ 0 <= plx /\ 0 <= prx /\
  0 <= x0 - stepx + plx /\ xl + stepx <= w + prx /\
  0 <= y0 - stepy + ply /\
  (h <= yl + stepx \/ yl + stepy <= h -> yl + stepy <= h + pry).
Proof.
  unfold image_pads. intros [= <- <- <- <-].
  destruct (Z.ltb_spec (x0 - stepx) 0), (Z.ltb_spec (w - 1) (xl + stepx)),
    (Z.ltb_spec (y0 - stepy) 0), (Z.ltb_spec (h - 1) (yl + stepx)); lia.
Qed.

(** One step through a sequence of fallible statements. *)
Ltac bind_step := cbn [mbind option_bind].

(** ** getChessTiles returns 64 tiles of one shape *)

Section TileShape.

Context {pixel : Type} (to_uint8 : pixel -> Z).

Lemma has_shape_eq (r r' c c' : nat) (m : list (list pixel)) :
  has_shape r c m -> r = r' -> c = c' -> has_shape r' c' m.
Proof. by intros ? <- <-. Qed.

Lemma broadcast_axis_same {A} (n : nat) (l : list A) :
  length l = n -> broadcast_axis n l = Some l.
Proof. intros <-. unfold broadcast_axis. by rewrite Nat.eqb_refl. Qed.

Lemma store_tile_shape (r c : nat) (v : list (list pixel)) :
  has_shape r c v ->
  exists t, store_tile pixel to_uint8 r c v = Some t /\ has_shape r c t.
Proof.
  intros [Hr Hc]. unfold store_tile.
  rewrite (broadcast_axis_same _ _ Hr). simpl.
  assert (exists t,
            mapM (fun row => map to_uint8 <$> broadcast_axis c row) v = Some t
            /\ length t = length v
            /\ Forall (fun row => length row = c) t) as (t & Et & Hl & Hf).
  { clear Hr. induction Hc as [|row v Hrow _ IH].
    - exists []. by repeat split.
    - destruct IH as (t & Ht & Hl & Hf).
      exists (map to_uint8 row :: t). split.
      + simpl. rewrite (broadcast_axis_same _ _ Hrow). simpl.
        by rewrite Ht.
      + split; [simpl; by rewrite Hl|].
        constructor; [by rewrite length_map|done]. }
  exists t. split; [done|]. split; [congruence|done].
Qed.

Lemma cell_tile_shape (g : grid pixel) (tx ty : Z) (i j : nat) :
  has_shape (Z.to_nat ty) (Z.to_nat tx) (grid_a2 g) ->
  axis_ok (grid_setsx g) tx -> axis_ok (grid_setsy g) ty ->
  1 <= grid_stepx g -> 1 <= grid_stepy g ->
  (i < 8)%nat -> (j < 8)%nat ->
  exists t, cell_tile pixel to_uint8 g i j = Some t /\
            has_shape (Z.to_nat (grid_stepy g)) (Z.to_nat (grid_stepx g)) t.
Proof.
  intros Ha Hx Hy Hsx Hsy Hi Hj.
  destruct (cell_bounds_ok _ _ _ i Hx Hsx Hi)
    as (x1 & x2 & plx & prx & Ex & ? & ? & ? & ? & ? & ?).
  destruct (cell_bounds_ok _ _ _ j Hy Hsy Hj)
    as (y1 & y2 & ply & pry & Ey & ? & ? & ? & ? & ? & ?).
  unfold cell_tile, cell_slice. rewrite Ex. simpl. rewrite Ey. simpl.
  pose proof (py_slice2_shape y1 y2 x1 x2 _ _ _ Ha) as Hs.
  destruct (np_pad_edge_shape (Z.to_nat ply) (Z.to_nat pry)
              (Z.to_nat plx) (Z.to_nat prx) _ _ _
              (Hs ltac:(lia) ltac:(lia) ltac:(lia) ltac:(lia)))
    as (v & Ev & Hv); [lia..|].
  rewrite Ev. simpl. apply store_tile_shape.
  eapply has_shape_eq; [exact Hv|lia..].
Qed.

(** The loops cannot raise once every cell has the stack's shape. *)
Lemma fill_tiles_shape (g : grid pixel) (tx ty : Z) :
  has_shape (Z.to_nat ty) (Z.to_nat tx) (grid_a2 g) ->
  axis_ok (grid_setsx g) tx -> axis_ok (grid_setsy g) ty ->
  1 <= grid_stepx g -> 1 <= grid_stepy g ->
  exists squares,
    fill_tiles pixel to_uint8 g = Some squares /\
    length squares = 64%nat /\
    Forall (has_shape (Z.to_nat (grid_stepy g)) (Z.to_nat (grid_stepx g)))
           squares.
Proof.
  intros Ha Hx Hy Hsx Hsy. unfold fill_tiles.
  destruct (Z.ltb_spec (grid_stepy g) 0); [lia|].
  destruct (Z.ltb_spec (grid_stepx g) 0); [lia|]. simpl.
  set (shape := has_shape (Z.to_nat (grid_stepy g)) (Z.to_nat (grid_stepx g))).
  set (P := fun s : list tile => length s = 64%nat /\ Forall shape s).
  assert (forall i s, (i < 8)%nat -> P s ->
            exists s', for_each (loop_body pixel to_uint8 g i) (seq 0 8) s
                       = Some s' /\ P s') as Hcol.
  { intros i s Hi Hs. apply for_each_is_Some; [done|].
    intros s1 j Hj%elem_of_seq [Hl Hf].
    destruct (cell_tile_shape g tx ty i j) as (t & Et & Ht); [done..|lia|].
    exists (<[tile_index i j := t]> s1). unfold loop_body. rewrite Et.
    split; [done|]. split; [by rewrite length_insert|by apply Forall_insert]. }
  destruct (for_each_is_Some
              (fun squares i =>
                 for_each (loop_body pixel to_uint8 g i) (seq 0 8) squares)
              P (seq 0 8)
              (replicate 64 (replicate (Z.to_nat (grid_stepy g))
                               (replicate (Z.to_nat (grid_stepx g)) 0))))
    as (squares & E & Hl & Hf).
  - split; [apply length_replicate|]. apply Forall_replicate.
    split; [apply length_replicate|]. apply Forall_replicate, length_replicate.
  - intros s1 i Hi%elem_of_seq Hs. apply Hcol; [lia|done].
  - by exists squares.
Qed.

Lemma tile_grid_shape (a : list (list pixel)) (lines_x lines_y : list Z)
    (h w : nat) (stepx stepy yl : Z) :
  has_shape h w a -> (0 < h)%nat -> (0 < w)%nat ->
  length lines_x = 7%nat -> increasing lines_x ->
  length lines_y = 7%nat -> increasing lines_y ->
  step_size lines_x = Some stepx -> step_size lines_y = Some stepy ->
  last lines_y = Some yl ->
  (Z.of_nat h <= yl + stepx \/ yl + stepy <= Z.of_nat h) ->
  exists (g : grid pixel) (tx ty : Z),
    tile_grid pixel a lines_x lines_y = Some g /\
    grid_stepx g = stepx /\ grid_stepy g = stepy /\
    1 <= stepx /\ 1 <= stepy /\
    has_shape (Z.to_nat ty) (Z.to_nat tx) (grid_a2 g) /\
    axis_ok (grid_setsx g) tx /\ axis_ok (grid_setsy g) ty.
Proof.
  intros Ha Hh Hw Hlx Hix Hly Hiy Esx Esy Eyl Hslip.
  destruct (step_size_increasing _ Hlx Hix) as (sx & Esx' & Hsx).
  destruct (step_size_increasing _ Hly Hiy) as (sy & Esy' & Hsy).
  assert (sx = stepx) as -> by congruence.
  assert (sy = stepy) as -> by congruence. clear Esx' Esy'.
  assert (exists x0, head lines_x = Some x0) as [x0 Ex0]
    by (destruct lines_x; [done|by eexists]).
  assert (exists xl, last lines_x = Some xl) as [xl Exl].
  { destruct (last lines_x) eqn:E; [by eexists|].
    apply last_None in E. by subst. }
  assert (exists y0, head lines_y = Some y0) as [y0 Ey0]
    by (destruct lines_y; [done|by eexists]).
  unfold tile_grid.
  rewrite Esx; bind_step. rewrite Esy; bind_step.
  rewrite Ex0; bind_step. rewrite Exl; bind_step.
  rewrite Ey0; bind_step. rewrite Eyl; bind_step.
  rewrite (has_shape_nrows _ _ _ Ha), (has_shape_ncols _ _ _ Ha Hh).
  destruct (image_pads x0 xl y0 yl stepx stepy (Z.of_nat h) (Z.of_nat w))
    as [[[ply pry] plx] prx] eqn:Ep.
  apply image_pads_spec in Ep
    as (? & ? & ? & ? & ? & ? & ? & Hbottom). specialize (Hbottom Hslip).
  destruct (np_pad_edge_shape (Z.to_nat ply) (Z.to_nat pry)
              (Z.to_nat plx) (Z.to_nat prx) h w a Ha Hh Hw)
    as (a2 & Ea2 & Hshape).
  rewrite Ea2; bind_step.
  destruct (relative_sets_ok lines_x x0 xl stepx plx Hlx Hix Ex0 Exl Hsx)
    as (sx0 & sxl & Ehx & Elx & -> & -> & Hax).
  destruct (relative_sets_ok lines_y y0 yl stepy ply Hly Hiy Ey0 Eyl Hsy)
    as (sy0 & syl & Ehy & Ely & -> & -> & Hay).
  rewrite Ehx; bind_step. rewrite Elx; bind_step.
  rewrite Ehy; bind_step. rewrite Ely; bind_step.
  assert (x0 - stepx < xl + stepx /\ y0 - stepy < yl + stepy) as [? ?].
  { destruct (Hax 7%nat) as (? & ? & _ & _ & ? & ? & ?); [lia|].
    destruct (Hay 7%nat) as (? & ? & _ & _ & ? & ? & ?); [lia|]. lia. }
  eexists _, _, _. split; [reflexivity|]. simpl.
  do 4 (split; [done|]). split; [|by split].
  apply (py_slice2_shape _ _ _ _ _ _ _ Hshape); lia.
Qed.

(** For every non-empty image and every pair of strictly increasing
    seven-line sets, provided the bottom boundary either fits the image or
    is seen by the overflow test as written (with the x step),
    [getChessTiles] returns 64 tiles, each of shape (stepy, stepx). *)
Theorem getChessTiles_shape (a : list (list pixel)) (lines_x lines_y : list Z)
    (h w : nat) (stepx stepy yl : Z) :
  has_shape h w a -> (0 < h)%nat -> (0 < w)%nat ->
  length lines_x = 7%nat -> increasing lines_x ->
  length lines_y = 7%nat -> increasing lines_y ->
  step_size lines_x = Some stepx -> step_size lines_y = Some stepy ->
  last lines_y = Some yl ->
  (Z.of_nat h <= yl + stepx \/ yl + stepy <= Z.of_nat h) ->
  exists squares,
    getChessTiles pixel to_uint8 a lines_x lines_y = Some squares /\
    length squares = 64%nat /\
    Forall (has_shape (Z.to_nat stepy) (Z.to_nat stepx)) squares.
Proof.
  intros Ha Hh Hw Hlx Hix Hly Hiy Esx Esy Eyl Hslip.
  destruct (tile_grid_shape a lines_x lines_y h w stepx stepy yl)
    as (g & tx & ty & Eg & <- & <- & Hsx & Hsy & Hs & Hax & Hay); [done..|].
  unfold getChessTiles. rewrite Eg. simpl.
  by apply (fill_tiles_shape g tx ty).
Qed.

End TileShape.

Example getChessTiles_shape_ramp :
  exists squares,
    getChessTiles Z id (ramp_image 33 38) lines_5 lines_5 = Some squares /\
    length squares = 64%nat /\
    Forall (has_shape 5 5) squares.
Proof.
  apply (getChessTiles_shape id (ramp_image 33 38) lines_5 lines_5
           33 38 5 5 35); try reflexivity; try lia.
  - split; [reflexivity|]. unfold ramp_image.
    apply Forall_map, Forall_forall. intros y _.
    cbv beta. by rewrite length_map, length_seq.
  - repeat (constructor; [|repeat constructor]); constructor.
  - repeat (constructor; [|repeat constructor]); constructor.
Defined.

(** ** Where the pixels of a tile come from *)

Lemma pad_edge_subset {A} (before after : nat) (l l' : list A) (x : A) :
  pad_edge before after l = Some l' -> x ∈ l' -> x ∈ l.
Proof.
  destruct l as [|y l].
  - simpl. destruct (Nat.eqb (before + after) 0); [|done]. by intros [= <-].
  - intros H. destruct (pad_edge_length before after (y :: l)) as (l2 & E & _ & Hin);
      [done|]. rewrite E in H. injection H as <-. apply Hin.
Qed.

Lemma np_pad_edge_pixels {A} (pt pb pl pr : nat) (m m' : list (list A)) (x : A) :
  np_pad_edge pt pb pl pr m = Some m' -> pixel_of x m' -> pixel_of x m.
Proof.
  unfold np_pad_edge, pixel_of. destruct m as [|row0 m0] eqn:Em.
  - destruct (Nat.eqb (pt + pb + pl + pr) 0); [|done]. by intros [= <-].
  - rewrite <- Em. clear Em. intros H (row' & Hrow' & Hx).
    destruct (mapM (pad_edge pl pr) m) as [rows|] eqn:Erows; [|done].
    simpl in H. apply (pad_edge_subset _ _ _ _ row' H) in Hrow'.
    apply mapM_Some_1 in Erows.
    apply list_elem_of_lookup in Hrow' as [k Hk].
    destruct (Forall2_lookup_r _ _ _ _ _ Erows Hk) as (row & Hrow & Hpad).
    exists row. split; [by eapply list_elem_of_lookup_2|].
    by eapply pad_edge_subset.
Qed.

Lemma py_slice2_pixels {A} (y1 y2 x1 x2 : Z) (m : list (list A)) (x : A) :
  pixel_of x (py_slice2 y1 y2 x1 x2 m) -> pixel_of x m.
Proof.
  unfold py_slice2, pixel_of. intros (row' & Hrow' & Hx).
  apply list_elem_of_fmap in Hrow' as (row & -> & Hrow).
  exists row. split; [by eapply py_slice_subset|by eapply py_slice_subset].
Qed.

Lemma broadcast_axis_subset {A} (n : nat) (l l' : list A) (x : A) :
  broadcast_axis n l = Some l' -> x ∈ l' -> x ∈ l.
Proof.
  unfold broadcast_axis. destruct (Nat.eqb (length l) n); [by intros [= <-]|].
  destruct l as [|y [|? ?]]; [done| |done].
  intros [= <-] [-> _]%elem_of_replicate. by left.
Qed.

Ltac bind_step' H := cbn [mbind option_bind] in H.

Section TilePixels.

Context {pixel : Type} (to_uint8 : pixel -> Z).

Lemma store_tile_pixels (r c : nat) (v : list (list pixel)) (t : tile) (z : Z) :
  store_tile pixel to_uint8 r c v = Some t -> pixel_of z t ->
  exists p, pixel_of p v /\ z = to_uint8 p.
Proof.
  unfold store_tile. intros H (trow & Htrow & Hz).
  destruct (broadcast_axis r v) as [rows|] eqn:Erows; [|done]. simpl in H.
  apply mapM_Some_1 in H.
  apply list_elem_of_lookup in Htrow as [k Hk].
  destruct (Forall2_lookup_r _ _ _ _ _ H Hk) as (row & Hrow & Hconv).
  destruct (broadcast_axis c row) as [row'|] eqn:Erow; [|done].
  simpl in Hconv. injection Hconv as <-.
  apply list_elem_of_fmap in Hz as (p & -> & Hp).
  exists p. split; [|done]. exists row. split.
  - eapply broadcast_axis_subset; [done|]. by eapply list_elem_of_lookup_2.
  - by eapply broadcast_axis_subset.
Qed.

Lemma cell_tile_pixels (g : grid pixel) (i j : nat) (t : tile) (z : Z) :
  cell_tile pixel to_uint8 g i j = Some t -> pixel_of z t ->
  exists p, pixel_of p (grid_a2 g) /\ z = to_uint8 p.
Proof.
  unfold cell_tile, cell_slice. intros H Hz.
  destruct (cell_bounds (grid_setsx g) (grid_stepx g) i)
    as [[[[x1 x2] plx] prx]|]; [|done].
  destruct (cell_bounds (grid_setsy g) (grid_stepy g) j)
    as [[[[y1 y2] ply] pry]|]; [|done].
  simpl in H.
  destruct (np_pad_edge _ _ _ _ _) as [v|] eqn:Ev; [|done]. simpl in H.
  destruct (store_tile_pixels _ _ _ _ _ H Hz) as (p & Hp & ->).
  exists p. split; [|done].
  eapply py_slice2_pixels, np_pad_edge_pixels; done.
Qed.

Lemma tile_grid_pixels (a : list (list pixel)) (lines_x lines_y : list Z)
    (g : grid pixel) (p : pixel) :
  tile_grid pixel a lines_x lines_y = Some g ->
  pixel_of p (grid_a2 g) -> pixel_of p a.
Proof.
  unfold tile_grid. intros H.
  repeat match type of H with
         | (?o ≫= _) = Some _ => destruct o; [bind_step' H|done]
         end.
  destruct (image_pads _ _ _ _ _ _ _ _) as [[[ply pry] plx] prx].
  destruct (np_pad_edge _ _ _ _ a) as [a2|] eqn:Ea2; [bind_step' H|done].
  repeat match type of H with
         | (?o ≫= _) = Some _ => destruct o; [bind_step' H|done]
         end.
  injection H as <-. cbn [grid_a2]. intros Hp.
  eapply np_pad_edge_pixels; [done|]. by eapply py_slice2_pixels.
Qed.

(** Every value of every returned tile is the conversion of a pixel of the
    source image: the stack holds no value of its own, the zeros it was
    allocated with included. *)
Theorem getChessTiles_pixels (a : list (list pixel))
    (lines_x lines_y : list Z) (squares : list tile) (t : tile) (z : Z) :
  getChessTiles pixel to_uint8 a lines_x lines_y = Some squares ->
  t ∈ squares -> pixel_of z t ->
  exists p, pixel_of p a /\ z = to_uint8 p.
Proof.
  unfold getChessTiles. intros H Ht Hz.
  destruct (tile_grid pixel a lines_x lines_y) as [g|] eqn:Eg; [|done].
  simpl in H. apply fill_tiles_order in H as [Hlen Hcells].
  apply list_elem_of_lookup in Ht as [k Hk].
  pose proof (lookup_lt_Some _ _ _ Hk) as Hk64. rewrite Hlen in Hk64.
  destruct (Hcells (k mod 8)%nat (7 - k / 8)%nat) as (t' & Et' & Ht').
  { apply Nat.mod_upper_bound. lia. } { lia. }
  unfold tile_index in Ht'.
  replace ((7 - (7 - k / 8)) * 8 + k mod 8)%nat with k in Ht'.
  2:{ pose proof (Nat.div_mod_eq k 8).
      assert (k / 8 < 8)%nat by (apply Nat.Div0.div_lt_upper_bound; lia).
      lia. }
  assert (t' = t) as -> by congruence.
  destruct (cell_tile_pixels _ _ _ _ _ Et' Hz) as (p & Hp & ->).
  exists p. split; [|done]. by eapply tile_grid_pixels.
Qed.

End TilePixels.

(** ** Delimited strings *)

Lemma string_length_of_list (l : list ascii) :
  String.length (string_of_list_ascii l) = length l.
Proof. induction l as [|c l IH]; simpl; congruence. Qed.

Lemma string_length_app (s1 s2 : string) :
  String.length (s1 ++ s2) = (String.length s1 + String.length s2)%nat.
Proof. induction s1 as [|c s1 IH]; simpl; congruence. Qed.

Lemma split_on_free (sep : ascii) (s : string) :
  free_of sep s -> split_on sep s = [s].
Proof.
  unfold free_of. induction s as [|c s IH]; simpl; [done|].
  intros [Hc Hs]%Forall_cons. apply Ascii.eqb_neq in Hc. rewrite Hc.
  by rewrite (IH Hs).
Qed.

Lemma split_on_app (sep : ascii) (g rest : string) :
  free_of sep g ->
  split_on sep (g ++ String sep rest) = g :: split_on sep rest.
Proof.
  unfold free_of. induction g as [|c g IH]; simpl.
  - intros _. by rewrite Ascii.eqb_refl.
  - intros [Hc Hg]%Forall_cons. apply Ascii.eqb_neq in Hc. rewrite Hc.
    by rewrite (IH Hg).
Qed.

(** Splitting a joined list of separator-free fields gives the fields. *)
Lemma split_on_concat (sep : ascii) (gs : list string) :
  gs <> [] -> Forall (free_of sep) gs ->
  split_on sep (String.concat (String sep EmptyString) gs) = gs.
Proof.
  induction gs as [|g gs IH]; [done|]. intros _ [Hg Hgs]%Forall_cons.
  destruct gs as [|g' gs]; [by apply split_on_free|].
  change (String.concat (String sep EmptyString) (g :: g' :: gs))
    with (g ++ String sep (String.concat (String sep EmptyString) (g' :: gs)))%string.
  rewrite split_on_app; [|done]. by rewrite IH.
Qed.

Lemma concat_length (sep : ascii) (n : nat) (gs : list string) :
  Forall (fun g => String.length g = n) gs ->
  String.length (String.concat (String sep EmptyString) gs)
  = (length gs * n + (length gs - 1))%nat.
Proof.
  induction gs as [|g gs IH]; [done|]. intros [Hg Hgs]%Forall_cons.
  destruct gs as [|g' gs]; [simpl; lia|].
  change (String.concat (String sep EmptyString) (g :: g' :: gs))
    with (g ++ String sep (String.concat (String sep EmptyString) (g' :: gs)))%string.
  rewrite string_length_app. cbn [String.length]. rewrite (IH Hgs), Hg.
  simpl. lia.
Qed.

(** ** getRandomFEN *)

Lemma random_choice_Some (population : list ascii) (draws : list nat) :
  Forall (fun k => (k < length population)%nat) draws ->
  exists pieces,
    random_choice population draws = Some pieces /\
    length pieces = length draws /\
    Forall (fun c => c ∈ population) pieces.
Proof.
  intros Hd. unfold random_choice.
  destruct (mapM (fun k => population !! k) draws) as [pieces|] eqn:E.
  - exists pieces. split; [done|].
    split; [symmetry; by eapply length_mapM|].
    apply mapM_Some_1 in E. clear Hd.
    induction E as [|k c ks cs Hk _ IH]; constructor; [|done].
    by eapply list_elem_of_lookup_2.
  - exfalso. assert (is_Some (mapM (fun k => population !! k) draws)) as [? ?];
      [|congruence].
    apply mapM_is_Some. eapply Forall_impl; [done|].
    intros k Hk. by apply lookup_lt_is_Some.
Qed.

Lemma fen_groups_spec (pieces : list ascii) :
  length pieces = 64%nat ->
  Forall (fun c => c ∈ fen_chars) pieces ->
  length (fen_groups pieces) = 8%nat /\
  Forall (fun g => String.length g = 8%nat /\
                   Forall (fun c => c ∈ fen_chars) (list_ascii_of_string g))
         (fen_groups pieces) /\
  mjoin (list_ascii_of_string <$> fen_groups pieces) = pieces.
Proof.
  intros Hlen Hin. split; [done|]. split.
  - unfold fen_groups. apply Forall_map, Forall_forall.
    intros i Hi%elem_of_seq. simpl.
    rewrite string_length_of_list, list_ascii_of_string_of_list_ascii.
    split; [rewrite slice_length; lia|by apply slice_Forall].
  - unfold fen_groups. cbn [seq map fmap list_fmap mjoin list_join].
    rewrite !list_ascii_of_string_of_list_ascii, app_nil_r.
    cbn [Nat.mul Nat.add].
    rewrite !(slice_app _ _ 64) by lia.
    rewrite <- Hlen. apply slice_all.
Qed.

Lemma fen_chars_free_of_slash (g : string) :
  Forall (fun c => c ∈ fen_chars) (list_ascii_of_string g) ->
  free_of "/" g.
Proof.
  unfold free_of. intros H. eapply Forall_impl; [exact H|].
  intros c Hc ->.
  unfold fen_chars in Hc. simpl in Hc.
  repeat (apply elem_of_cons in Hc as [Hc|Hc]; [discriminate|]).
  by apply elem_of_nil in Hc.
Qed.

(** C9.  For every draw of 64 indices into the thirteen-character set, the
    generator returns a string that splits on ['/'] into exactly eight
    groups of exactly eight characters of the set; the groups, in order,
    are the 64 drawn characters, and the string has length 71. *)
Theorem getRandomFEN_groups (draws : list nat) :
  length draws = 64%nat ->
  Forall (fun k => (k < 13)%nat) draws ->
  exists (pieces : list ascii) (fen : string),
    random_choice fen_chars draws = Some pieces /\
    getRandomFEN draws = Some fen /\
    length pieces = 64%nat /\
    Forall (fun c => c ∈ fen_chars) pieces /\
    length (split_on "/" fen) = 8%nat /\
    Forall (fun g => String.length g = 8%nat /\
                     Forall (fun c => c ∈ fen_chars) (list_ascii_of_string g))
           (split_on "/" fen) /\
    mjoin (list_ascii_of_string <$> split_on "/" fen) = pieces /\
    fen = String.concat "/" (split_on "/" fen) /\
    String.length fen = 71%nat.
Proof.
  intros Hlen Hd.
  destruct (random_choice_Some fen_chars draws Hd) as (pieces & E & Hl & Hin).
  rewrite Hlen in Hl.
  destruct (fen_groups_spec pieces Hl Hin) as (Hg8 & Hg & Hj).
  assert (split_on "/" (join_fen pieces) = fen_groups pieces) as Hsplit.
  { apply split_on_concat; [by destruct (fen_groups pieces)|].
    eapply Forall_impl; [exact Hg|]. intros g [_ Hc].
    by apply fen_chars_free_of_slash. }
  exists pieces, (join_fen pieces).
  split; [done|]. split; [unfold getRandomFEN; by rewrite E|].
  rewrite Hsplit. repeat split; try done.
  unfold join_fen. rewrite (concat_length "/" 8), Hg8; [done|].
  eapply Forall_impl; [exact Hg|]. by intros g [? _].
Qed.

Lemma getRandomFEN_groups_witness :
  exists (pieces : list ascii) (fen : string),
    random_choice fen_chars (flat_map (fun _ => seq 0 13) (seq 0 4) ++ seq 0 12)
      = Some pieces /\
    getRandomFEN (flat_map (fun _ => seq 0 13) (seq 0 4) ++ seq 0 12)
      = Some fen /\
    length pieces = 64%nat /\
    Forall (fun c => c ∈ fen_chars) pieces /\
    length (split_on "/" fen) = 8%nat /\
    Forall (fun g => String.length g = 8%nat /\
                     Forall (fun c => c ∈ fen_chars) (list_ascii_of_string g))
           (split_on "/" fen) /\
    mjoin (list_ascii_of_string <$> split_on "/" fen) = pieces /\
    fen = String.concat "/" (split_on "/" fen) /\
    String.length fen = 71%nat.
Proof.
  apply (getRandomFEN_groups
           (flat_map (fun _ => seq 0 13) (seq 0 4) ++ seq 0 12)).
  - reflexivity.
  - simpl. repeat (constructor; [lia|]). constructor.
Defined.

(** ** The two passes of skeletonize_1d *)

Lemma skel_forward_step_length (arr s : list Q) (i : nat) :
  length (skel_forward_step arr s i) = length s.
Proof.
  unfold skel_forward_step.
  destruct (arr !! i), (s !! S i); try done.
  destruct (Qle_bool _ _); [apply length_insert|done].
Qed.

Lemma skel_reverse_step_length (s : list Q) (i : nat) :
  length (skel_reverse_step s i) = length s.
Proof.
  unfold skel_reverse_step.
  destruct (s !! (i - 1)%nat), (s !! i); try done.
  destruct (Qlt_bool _ _); [apply length_insert|done].
Qed.

(** After the first [k] iterations of the forward loop the samples below
    [k] have their forward value and the others are still the input's. *)
Lemma skel_forward_prefix (arr : list Q) (k : nat) :
  (k <= length arr - 1)%nat ->
  let s := fold_left (skel_forward_step arr) (seq 0 k) arr in
  length s = length arr /\
  forall i, s !! i = if decide (i < k)%nat then forward_value arr i
                     else arr !! i.
Proof.
  induction k as [|k IH]; intros Hk; cbv zeta.
  - split; [done|]. intros i. by destruct (decide (i < 0)%nat); [lia|].
  - rewrite seq_S, fold_left_app. cbn [fold_left Nat.add].
    destruct IH as [Hlen Hs]; [lia|].
    set (s := fold_left (skel_forward_step arr) (seq 0 k) arr) in *.
    split; [by rewrite skel_forward_step_length|].
    intros i. unfold skel_forward_step.
    destruct (lookup_lt_is_Some_2 arr k) as [a Ha]; [lia|].
    destruct (lookup_lt_is_Some_2 arr (S k)) as [b Hb]; [lia|].
    assert (s !! S k = Some b) as Hsb.
    { rewrite Hs. destruct (decide (S k < k)%nat); [lia|done]. }
    rewrite Ha, Hsb.
    assert (forward_value arr k = Some (if Qle_bool a b then 0%Q else a)) as Hfk.
    { unfold forward_value. by rewrite Ha, Hb. }
    assert (s !! k = Some a) as Hsk.
    { rewrite Hs. destruct (decide (k < k)%nat); [lia|done]. }
    destruct (decide (i = k)) as [->|Hne].
    + destruct (decide (k < S k)%nat); [|lia]. rewrite Hfk.
      destruct (Qle_bool a b); [|done].
      apply list_lookup_insert_eq. apply lookup_lt_Some in Hsk. done.
    + assert ((if decide (i < S k)%nat then forward_value arr i
               else arr !! i) = s !! i) as ->.
      { rewrite Hs.
        destruct (decide (i < S k)%nat), (decide (i < k)%nat); try done; lia. }
      destruct (Qle_bool a b); [|done].
      by rewrite list_lookup_insert_ne.
Qed.

(** The forward pass as a whole yields the forward values. *)
Lemma skel_forward_pass (arr : list Q) :
  let s := fold_left (skel_forward_step arr) (seq 0 (length arr - 1)) arr in
  length s = length arr /\ forall i, s !! i = forward_value arr i.
Proof.
  destruct (skel_forward_prefix arr (length arr - 1)) as [Hlen Hs]; [done|].
  split; [done|]. intros i. rewrite Hs.
  destruct (decide (i < length arr - 1)%nat) as [|Hge]; [done|].
  unfold forward_value. destruct (arr !! i) as [a|] eqn:Ha; [|done].
  simpl. apply lookup_lt_Some in Ha.
  rewrite (lookup_ge_None_2 arr (S i)); [done|lia].
Qed.

(** The reverse loop over the indices [m, m-1, ..., 1] of any array. *)
Lemma skel_reverse_pass (m : nat) (s : list Q) :
  (m < length s)%nat ->
  let r := fold_left skel_reverse_step (rev (seq 1 m)) s in
  length r = length s /\
  forall i, r !! i =
    if decide (1 <= i <= m)%nat then
      match s !! (i - 1)%nat, s !! i with
      | Some a, Some b => Some (if Qlt_bool b a then 0%Q else b)
      | _, other => other
      end
    else s !! i.
Proof.
  revert s. induction m as [|m IH]; intros s Hm; cbv zeta.
  - split; [done|]. intros i. destruct (decide (1 <= i <= 0)%nat); [lia|done].
  - rewrite seq_S, rev_unit. cbn [fold_left Nat.add].
    set (s' := skel_reverse_step s (S m)).
    assert (length s' = length s) as Hlen' by apply skel_reverse_step_length.
    destruct (IH s') as [Hlen Hr]; [lia|].
    split; [congruence|]. intros i. rewrite Hr.
    destruct (lookup_lt_is_Some_2 s m) as [a Ha]; [lia|].
    destruct (lookup_lt_is_Some_2 s (S m)) as [b Hb]; [lia|].
    assert (forall j, j <> S m -> s' !! j = s !! j) as Hother.
    { intros j Hj. unfold s', skel_reverse_step.
      destruct (s !! (S m - 1)%nat), (s !! S m); try done.
      destruct (Qlt_bool _ _); [by rewrite list_lookup_insert_ne|done]. }
    assert (s' !! S m = Some (if Qlt_bool b a then 0%Q else b)) as Hnew.
    { unfold s', skel_reverse_step.
      replace (S m - 1)%nat with m by lia. rewrite Ha, Hb.
      destruct (Qlt_bool b a); [|done].
      apply list_lookup_insert_eq. by apply lookup_lt_Some in Hb. }
    destruct (decide (1 <= i <= m)%nat) as [Hi|Hi].
    + destruct (decide (1 <= i <= S m)%nat); [|lia].
      rewrite !Hother by lia. done.
    + destruct (decide (i = S m)) as [->|Hne].
      * destruct (decide (1 <= S m <= S m)%nat); [|lia].
        replace (S m - 1)%nat with m by lia. by rewrite Hnew, Ha, Hb.
      * destruct (decide (1 <= i <= S m)%nat); [lia|]. by apply Hother.
Qed.

(** [skeletonize_1d] keeps the length of its input and leaves at every
    index the closed-form value: the in-place loops read each sample before
    any write can reach it. *)
Lemma skeletonize_1d_lookup (arr : list Q) (i : nat) :
  skeletonize_1d arr !! i = skeleton_value arr i.
Proof.
  unfold skeletonize_1d.
  destruct (skel_forward_pass arr) as [Hlen Hf].
  set (fwd := fold_left (skel_forward_step arr) (seq 0 (length arr - 1)) arr)
    in *.
  destruct (decide (length arr = 0)%nat) as [Hz|Hnz].
  - rewrite Hz. simpl. rewrite Hf.
    apply nil_length_inv in Hz. subst. by destruct i.
  - destruct (skel_reverse_pass (length arr - 1) fwd) as [_ Hr]; [lia|].
    rewrite Hr. destruct i as [|j].
    + destruct (decide (1 <= 0 <= length arr - 1)%nat); [lia|]. apply Hf.
    + replace (S j - 1)%nat with j by lia. rewrite !Hf. simpl.
      destruct (decide (1 <= S j <= length arr - 1)%nat) as [|Hout]; [done|].
      assert (forward_value arr (S j) = None) as ->.
      { unfold forward_value. rewrite (lookup_ge_None_2 arr (S j)); [done|lia]. }
      by destruct (forward_value arr j).
Qed.

Lemma skeletonize_1d_length (arr : list Q) :
  length (skeletonize_1d arr) = length arr.
Proof.
  unfold skeletonize_1d.
  destruct (skel_forward_pass arr) as [Hlen _].
  destruct (decide (length arr = 0)%nat) as [Hz|Hnz].
  - apply nil_length_inv in Hz. by subst.
  - destruct (skel_reverse_pass (length arr - 1)
                (fold_left (skel_forward_step arr) (seq 0 (length arr - 1)) arr))
      as [Hr _]; [lia|]. congruence.
Qed.

Lemma Qle_bool_false (a b : Q) : Qle_bool a b = false <-> (b < a)%Q.
Proof.
  split; intros H.
  - apply Qnot_le_lt. intros Hle%Qle_bool_iff. congruence.
  - destruct (Qle_bool a b) eqn:E; [|done].
    apply Qle_bool_iff in E. by apply Qlt_not_le in H.
Qed.

Lemma Qlt_bool_true (a b : Q) : Qlt_bool a b = true <-> (a < b)%Q.
Proof.
  unfold Qlt_bool. rewrite negb_true_iff. apply Qle_bool_false.
Qed.

Lemma Qlt_bool_false (a b : Q) : Qlt_bool a b = false <-> (b <= a)%Q.
Proof.
  unfold Qlt_bool. rewrite negb_false_iff. apply Qle_bool_iff.
Qed.

Lemma forward_value_nonzero (arr : list Q) (i : nat) (u : Q) :
  forward_value arr i = Some u -> ~ (u == 0)%Q ->
  arr !! i = Some u /\ forall b, arr !! S i = Some b -> (b < u)%Q.
Proof.
  unfold forward_value. destruct (arr !! i) as [a|]; [simpl|done].
  destruct (arr !! S i) as [b|].
  - destruct (Qle_bool a b) eqn:E; intros [= <-] Hnz; [by destruct Hnz|].
    split; [done|]. intros ? [= <-]. by apply Qle_bool_false.
  - intros [= <-] _. by split.
Qed.

Lemma forward_value_peak (arr : list Q) (i : nat) (v : Q) :
  arr !! i = Some v -> (forall b, arr !! S i = Some b -> (b < v)%Q) ->
  forward_value arr i = Some v.
Proof.
  intros Hv Hr. unfold forward_value. rewrite Hv. simpl.
  destruct (arr !! S i) as [b|]; [|done].
  by rewrite (proj2 (Qle_bool_false v b) (Hr b eq_refl)).
Qed.

(** The samples [skeletonize_1d] leaves non-zero are exactly the peaks of
    its input, each with its input value. *)
Lemma skeleton_nonzero_iff (arr : list Q) (i : nat) (u : Q) :
  (skeletonize_1d arr !! i = Some u /\ ~ (u == 0)%Q)
  <-> (peak_at arr i u /\ ~ (u == 0)%Q).
Proof.
  rewrite skeletonize_1d_lookup. unfold peak_at. split.
  - intros [Hs Hnz]. split; [|done]. destruct i as [|j]; simpl in Hs.
    + apply forward_value_nonzero in Hs as [Hv Hr]; [|done].
      split; [done|]. split; [done|]. intros ? ? [=].
    + destruct (forward_value arr j) as [fa|] eqn:Hfa.
      * destruct (forward_value arr (S j)) as [fb|] eqn:Hfb; [|done].
        destruct (Qlt_bool fb fa) eqn:Hlt; injection Hs as <-;
          [by destruct Hnz|].
        apply Qlt_bool_false in Hlt.
        apply forward_value_nonzero in Hfb as [Hv Hr]; [|done].
        split; [done|]. split; [done|]. intros ? a [= <-] Ha.
        unfold forward_value in Hfa. rewrite Ha, Hv in Hfa. simpl in Hfa.
        destruct (Qle_bool a fb) eqn:E; injection Hfa as <-.
        -- by apply Qle_bool_iff in E.
        -- apply Qle_bool_false in E. exfalso.
           by apply (Qlt_not_le _ _ E).
      * apply forward_value_nonzero in Hs as [Hv Hr]; [|done].
        unfold forward_value in Hfa.
        destruct (arr !! j) as [a|] eqn:Ha.
        -- simpl in Hfa. rewrite Hv in Hfa. done.
        -- apply lookup_ge_None in Ha. apply lookup_lt_Some in Hv. lia.
  - intros [(Hv & Hr & Hl) Hnz]. split; [|done].
    pose proof (forward_value_peak arr i u Hv Hr) as Hf.
    destruct i as [|j]; [done|]. simpl. rewrite Hf.
    destruct (forward_value arr j) as [fa|] eqn:Hfa; [|done].
    destruct (lookup_lt_is_Some_2 arr j) as [a Ha].
    { apply lookup_lt_Some in Hv. lia. }
    destruct (Hl j a eq_refl Ha) as [Hau H0u].
    unfold forward_value in Hfa. rewrite Ha, Hv in Hfa. simpl in Hfa.
    rewrite (proj2 (Qle_bool_iff a u) Hau) in Hfa. injection Hfa as <-.
    by rewrite (proj2 (Qlt_bool_false u 0) H0u).
Qed.

(** Each sample is either zeroed or left as it was; nothing else is ever
    written. *)
Lemma skeletonize_1d_zero_or_same (arr : list Q) (i : nat) (v : Q) :
  arr !! i = Some v ->
  skeletonize_1d arr !! i = Some v \/ skeletonize_1d arr !! i = Some 0%Q.
Proof.
  intros Hv. rewrite skeletonize_1d_lookup.
  assert (forward_value arr i = Some v \/ forward_value arr i = Some 0%Q) as Hf.
  { unfold forward_value. rewrite Hv. simpl.
    destruct (arr !! S i); [destruct (Qle_bool _ _)|]; auto. }
  destruct i as [|j]; [done|]. simpl.
  destruct (forward_value arr j) as [fa|]; [|done].
  destruct Hf as [-> | ->]; destruct (Qlt_bool _ _); auto.
Qed.


(** ** Where the candidate lines lie *)

Lemma increasing_lookup (l : list Z) (i j : nat) (a b : Z) :
  increasing l -> l !! i = Some a -> l !! j = Some b -> (i < j)%nat -> a < b.
Proof.
  intros Hl Ha Hb Hij.
  rewrite <- (take_drop_middle l j b Hb) in Hl.
  apply (StronglySorted_app_1_elem_of _ _ _ a b Hl); [|by left].
  apply elem_of_take. eauto.
Qed.

(** [np.where] lists exactly the indices of the non-zero samples. *)
Lemma where_from_spec (i p : Z) (arr : list Q) :
  p ∈ where_from i arr <->
  exists (k : nat) (v : Q),
    arr !! k = Some v /\ p = i + Z.of_nat k /\ Qeq_bool v 0 = false.
Proof.
  revert i. induction arr as [|q arr IH]; intros i; simpl.
  - split; [by intros ?%elem_of_nil|]. by intros (k & v & ? & _).
  - assert (p ∈ where_from (i + 1) arr <->
            exists (k : nat) (v : Q),
              (q :: arr) !! S k = Some v /\ p = i + Z.of_nat (S k) /\
              Qeq_bool v 0 = false) as Htail.
    { rewrite IH. split; intros (k & v & ? & ? & ?); exists k, v;
        (split; [done|]); (split; [lia|done]). }
    destruct (Qeq_bool q 0) eqn:E.
    + rewrite Htail. split.
      * intros (k & v & ?). by exists (S k), v.
      * intros ([|k] & v & Hv & ? & Hnz); [|by exists k, v].
        simpl in Hv. injection Hv as <-. congruence.
    + rewrite elem_of_cons, Htail. split.
      * intros [->|(k & v & ?)]; [|by exists (S k), v].
        exists 0%nat, q. repeat split; [lia|done].
      * intros ([|k] & v & Hv & ? & Hnz); [left; lia|right; by exists k, v].
Qed.

Lemma np_where_spec (p : Z) (arr : list Q) :
  p ∈ np_where arr <->
  0 <= p /\ exists v, arr !! Z.to_nat p = Some v /\ Qeq_bool v 0 = false.
Proof.
  unfold np_where. rewrite where_from_spec. split.
  - intros (k & v & Hv & -> & Hnz). split; [lia|].
    exists v. by rewrite Z.add_0_l, Nat2Z.id.
  - intros (Hp & v & Hv & Hnz). exists (Z.to_nat p), v.
    split; [done|]. split; [lia|done].
Qed.

Lemma addl_length (a b : list Q) :
  length (addl a b) = Nat.max (length a) (length b).
Proof.
  revert b. induction a as [|x a IH]; intros [|y b]; simpl; try done.
  by rewrite IH.
Qed.

Lemma conv_full_length (a v : list Q) :
  a <> [] -> v <> [] ->
  length (conv_full a v) = (length a + length v - 1)%nat.
Proof.
  intros Ha Hv. induction a as [|x a IH]; [done|].
  cbn [conv_full]. rewrite addl_length, length_map. cbn [length].
  destruct a as [|y a].
  - simpl. destruct v; [done|]. simpl. lia.
  - rewrite IH by done. simpl. lia.
Qed.

Lemma np_convolve_same_eq (a v : list Q) :
  a <> [] -> v <> [] ->
  np_convolve_same a v
  = Some (take (Nat.max (length a) (length v))
            (drop (Nat.min (length a) (length v) - 1
                   - Nat.min (length a) (length v) / 2)%nat
               (conv_full a v))).
Proof. by destruct a, v. Qed.

(** In mode ['same'] the blur has the length of the longer operand. *)
Lemma np_convolve_same_length (a v blur : list Q) :
  np_convolve_same a v = Some blur ->
  length blur = Nat.max (length a) (length v).
Proof.
  intros H.
  assert (a <> [] /\ v <> []) as [Ha Hv].
  { destruct a, v; try done. }
  rewrite np_convolve_same_eq in H by done. injection H as <-.
  rewrite length_take, length_drop, conv_full_length by done.
  generalize ((length a `min` length v) / 2)%nat. intros d.
  destruct a, v; try done. cbn [length]. lia.
Qed.

Lemma skeletonize_1d_isolated (arr : list Q) (i : nat) (u w : Q) :
  skeletonize_1d arr !! i = Some u ->
  skeletonize_1d arr !! S i = Some w ->
  (u == 0)%Q \/ (w == 0)%Q.
Proof.
  intros Hu Hw.
  destruct (Qeq_dec u 0) as [|Hnu]; [by left|].
  destruct (Qeq_dec w 0) as [|Hnw]; [by right|]. exfalso.
  destruct (proj1 (skeleton_nonzero_iff arr i u) (conj Hu Hnu))
    as [(Hv & Hr & _) _].
  destruct (proj1 (skeleton_nonzero_iff arr (S i) w) (conj Hw Hnw))
    as [(Hv' & _ & Hl) _].
  destruct (Hl i u eq_refl Hv) as [Huw _].
  specialize (Hr w Hv'). by apply (Qlt_not_le _ _ Hr).
Qed.

(** What [skeletonize_1d] does to an array: the length is kept, every
    sample is either zeroed or left as it was, and the samples left
    non-zero are exactly the peaks of the input. *)
Theorem skeletonize_1d_peaks (arr : list Q) :
  length (skeletonize_1d arr) = length arr /\
  (forall i v, arr !! i = Some v ->
     skeletonize_1d arr !! i = Some v \/ skeletonize_1d arr !! i = Some 0%Q) /\
  (forall i u,
     (skeletonize_1d arr !! i = Some u /\ ~ (u == 0)%Q)
     <-> (peak_at arr i u /\ ~ (u == 0)%Q)).
Proof.
  split; [apply skeletonize_1d_length|].
  split; [apply skeletonize_1d_zero_or_same|apply skeleton_nonzero_iff].
Qed.

(** The candidate lines of one axis are indices into the blurred curve,
    which is as long as the longer of curve and window, and two consecutive
    candidates are at least two pixels apart. *)
Theorem candidateLines_positions (gausswin hd : list Q) (thresh : Q)
    (cand : list Z) :
  candidateLines gausswin hd thresh = Some cand ->
  Forall (fun p => 0 <= p < Z.of_nat (Nat.max (length hd) (length gausswin)))
         cand /\
  forall k p q, cand !! k = Some p -> cand !! S k = Some q -> p + 2 <= q.
Proof.
  unfold candidateLines. intros H.
  destruct (np_convolve_same _ gausswin) as [blur|] eqn:Eb; [|done].
  simpl in H. injection H as <-.
  apply np_convolve_same_length in Eb.
  rewrite length_map in Eb. unfold binarize in Eb. rewrite length_map in Eb.
  split.
  - apply Forall_forall. intros p (Hp & v & Hv & _)%np_where_spec.
    apply lookup_lt_Some in Hv. rewrite skeletonize_1d_length in Hv. lia.
  - intros k p q Hp Hq.
    pose proof (increasing_lookup _ k (S k) p q
                  (np_where_increasing _) Hp Hq ltac:(lia)) as Hlt.
    destruct (decide (q = p + 1)) as [->|]; [exfalso|lia].
    apply list_elem_of_lookup_2, np_where_spec in Hp as (Hp0 & u & Hu & Hnu).
    apply list_elem_of_lookup_2, np_where_spec in Hq as (_ & w & Hw & Hnw).
    replace (Z.to_nat (p + 1)) with (S (Z.to_nat p)) in Hw by lia.
    destruct (skeletonize_1d_isolated _ _ _ _ Hu Hw) as [E|E];
      apply Qeq_eq_bool in E; congruence.
Qed.

Lemma candidateLines_positions_witness :
  Forall (fun p => 0 <= p < Z.of_nat (Nat.max (length board_curve)
                                        (length gausswin21)))
         [30; 60; 90; 120; 150; 180; 210] /\
  forall k p q,
    [30; 60; 90; 120; 150; 180; 210] !! k = Some p ->
    [30; 60; 90; 120; 150; 180; 210] !! S k = Some q -> p + 2 <= q.
Proof.
  apply (candidateLines_positions gausswin21 board_curve 96).
  vm_compute. reflexivity.
Defined.

(** ** A curve below its threshold *)

Lemma addl_zero (a b : list Q) :
  Forall (fun x => x == 0)%Q a -> Forall (fun x => x == 0)%Q b ->
  Forall (fun x => x == 0)%Q (addl a b).
Proof.
  intros Ha. revert b. induction Ha as [|x a Hx Ha IH]; intros b Hb; [done|].
  destruct Hb as [|y b Hy Hb]; simpl; [by constructor|].
  constructor; [|by apply IH]. rewrite Hx, Hy. reflexivity.
Qed.

Lemma conv_full_zero (a v : list Q) :
  Forall (fun x => x == 0)%Q a -> Forall (fun x => x == 0)%Q (conv_full a v).
Proof.
  induction 1 as [|x a Hx Ha IH]; simpl; [constructor|].
  apply addl_zero; [|by constructor].
  apply Forall_map, Forall_forall. intros w _. simpl. rewrite Hx. ring.
Qed.

Lemma np_where_zero (arr : list Q) :
  Forall (fun x => x == 0)%Q arr -> np_where arr = [].
Proof.
  intros H. unfold np_where.
  assert (forall i, where_from i arr = []) as Hall; [|apply Hall].
  induction H as [|x arr Hx _ IH]; intros i; [done|].
  simpl. by rewrite (Qeq_eq_bool _ _ Hx).
Qed.

Lemma candidateLines_below (gausswin hd : list Q) (thresh : Q) :
  gausswin <> [] -> hd <> [] ->
  Forall (fun v => v <= thresh)%Q hd ->
  candidateLines gausswin hd thresh = Some [].
Proof.
  intros Hg Hh Hbelow. unfold candidateLines.
  assert (Forall (fun x => x == 0)%Q (map bool_to_Q (binarize hd thresh)))
    as Hz.
  { unfold binarize. rewrite map_map. apply Forall_map.
    eapply Forall_impl; [exact Hbelow|]. intros v Hv. simpl.
    by rewrite (proj2 (Qlt_bool_false thresh v) Hv). }
  rewrite np_convolve_same_eq; [|by destruct hd|done]. simpl. f_equal.
  apply np_where_zero, Forall_forall. intros u Hu.
  apply list_elem_of_lookup in Hu as [i Hi].
  set (blur := take _ _) in *.
  assert (Forall (fun x => x == 0)%Q blur) as Hblur.
  { apply Forall_take, Forall_drop. by apply conv_full_zero. }
  destruct (lookup_lt_is_Some_2 blur i) as [v Hv].
  { apply lookup_lt_Some in Hi. by rewrite skeletonize_1d_length in Hi. }
  destruct (skeletonize_1d_zero_or_same blur i v Hv) as [E|E];
    rewrite E in Hi; injection Hi as <-; [|reflexivity].
  apply (proj1 (Forall_forall _ _) Hblur). by eapply list_elem_of_lookup_2.
Qed.

(** When no sample of the x curve exceeds its threshold, the axis has no
    line at all and no board is reported, whatever the other axis holds. *)
Theorem getChessLines_flat_curve (gausswin hdx hdy : list Q) (tx ty : Q) :
  gausswin <> [] -> hdx <> [] -> hdy <> [] ->
  Forall (fun v => v <= tx)%Q hdx ->
  exists lines_y,
    getChessLines gausswin hdx hdy tx ty = Some ([], lines_y, false).
Proof.
  intros Hg Hx Hy Hbelow. unfold getChessLines.
  rewrite (candidateLines_below gausswin hdx tx Hg Hx Hbelow).
  destruct (candidateLines_is_Some gausswin hdy ty Hg Hy) as [cy ->].
  simpl. eauto.
Qed.

Lemma getChessLines_flat_curve_witness :
  exists lines_y,
    getChessLines gausswin21 (replicate 30 0%Q) board_curve 0 96
    = Some ([], lines_y, false).
Proof.
  apply (getChessLines_flat_curve gausswin21 (replicate 30 0%Q) board_curve
           0 96); try (vm_compute; discriminate).
  apply Forall_replicate. vm_compute. discriminate.
Defined.

(** ** checkMatch on seven lines *)

Lemma checkMatch_loop_six (d0 d1 d2 d3 d4 d5 : Z) :
  checkMatch_loop [d0; d1; d2; d3; d4; d5] 0 0%nat = 5%nat <->
  within5 d0 0 = false /\
  within5 d1 d0 = true /\ within5 d2 d0 = true /\ within5 d3 d0 = true /\
  within5 d4 d0 = true /\ within5 d5 d0 = true.
Proof.
  cbn [checkMatch_loop].
  repeat match goal with
         | |- context [if within5 ?a ?b then _ else _] =>
             destruct (within5 a b) eqn:?
         end;
    split; intros H; try discriminate; try done;
    destruct H as (? & ? & ? & ? & ? & ?); congruence.
Qed.

(** On a set of exactly seven lines [checkMatch] answers true exactly when
    the first gap is at least 5 pixels in absolute value and each of the
    five other gaps is within 5 pixels of the first. *)
Theorem checkMatch_seven (lineset : list Z) :
  length lineset = 7%nat ->
  (checkMatch lineset = true <->
   consistent_gaps lineset /\
   exists x, head (np_diff lineset) = Some x /\ 5 <= Z.abs x).
Proof.
  intros (a0 & a1 & a2 & a3 & a4 & a5 & a6 & ->)%length_7_inv.
  unfold checkMatch, consistent_gaps. cbn [np_diff head].
  rewrite Nat.eqb_eq, checkMatch_loop_six.
  assert (within5 (a1 - a0) 0 = false <-> 5 <= Z.abs (a1 - a0)) as Hfirst.
  { unfold within5. rewrite Z.ltb_ge. by replace (a1 - a0 - 0) with (a1 - a0) by lia. }
  rewrite Hfirst. split.
  - intros (H0 & H1 & H2 & H3 & H4 & H5). split; [|by eauto].
    split; [done|]. by repeat constructor.
  - intros [[_ Hf] (x & [= <-] & Hx)].
    split; [done|].
    repeat match goal with
           | H : Forall _ (_ :: _) |- _ => apply Forall_cons in H as [? H]
           end.
    done.
Qed.

Lemma checkMatch_seven_witness :
  checkMatch lines_5 = true <->
  consistent_gaps lines_5 /\
  exists x, head (np_diff lines_5) = Some x /\ 5 <= Z.abs x.
Proof. apply (checkMatch_seven lines_5). reflexivity. Defined.

(** ** The step is the nearest integer to the mean gap *)

Lemma round_half_even_nearest (num den : Z) :
  0 < den -> 2 * Z.abs (den * round_half_even num den - num) <= den.
Proof.
  intros Hden. unfold round_half_even.
  destruct (Z.ltb_spec (2 * (num mod den)) den);
    [|destruct (Z.ltb_spec den (2 * (num mod den)));
      [|destruct (Z.even (num / den))]];
    pose proof (Z.div_mod num den ltac:(lia));
    pose proof (Z.mod_pos_bound num den Hden); nia.
Qed.

Lemma round_half_even_ge_1 (num den : Z) :
  0 < den -> den <= num -> 1 <= round_half_even num den.
Proof.
  intros Hden Hle.
  pose proof (round_half_even_nearest num den Hden). nia.
Qed.

(** The gaps telescope. *)
Lemma sumZ_np_diff (a : Z) (l : list Z) :
  sumZ (np_diff (a :: l)) = default a (last (a :: l)) - a.
Proof.
  revert a. induction l as [|b l IH]; intros a; [simpl; lia|].
  change (np_diff (a :: b :: l)) with ((b - a) :: np_diff (b :: l)).
  cbn [sumZ fold_right]. change (fold_right Z.add 0 ?x) with (sumZ x).
  rewrite IH. rewrite (last_cons_cons a b l).
  destruct (last (b :: l)) eqn:E; simpl; [lia|].
  by apply last_None in E.
Qed.

Lemma increasing_span (a : Z) (l : list Z) :
  increasing (a :: l) ->
  Z.of_nat (length l) <= default a (last (a :: l)) - a.
Proof.
  revert a. induction l as [|b l IH]; intros a Hinc; [simpl; lia|].
  apply increasing_cons2 in Hinc as [Hab Hinc]. specialize (IH b Hinc).
  rewrite (last_cons_cons a b l).
  destruct (last (b :: l)) eqn:E; simpl in *; [lia|].
  by apply last_None in E.
Qed.

(** For a set of at least two lines the step is defined and is a nearest
    integer to the mean gap [(last - first) / (n - 1)]; for a strictly
    increasing set it is at least one pixel. *)
Theorem step_size_nearest (lines : list Z) :
  (2 <= length lines)%nat ->
  exists first lst step,
    head lines = Some first /\ last lines = Some lst /\
    step_size lines = Some step /\
    2 * Z.abs (Z.of_nat (length lines - 1) * step - (lst - first))
      <= Z.of_nat (length lines - 1) /\
    (increasing lines -> 1 <= step).
Proof.
  intros Hlen. destruct lines as [|a rest]; [simpl in Hlen; lia|].
  destruct (last (a :: rest)) as [lst|] eqn:El; [|by apply last_None in El].
  pose proof (sumZ_np_diff a rest) as Hsum. rewrite El in Hsum.
  cbn [default] in Hsum.
  pose proof (np_diff_length (a :: rest)) as Hdl.
  pose proof (increasing_span a rest) as Hspan. rewrite El in Hspan.
  cbn [default] in Hspan.
  exists a, lst. unfold step_size.
  destruct (np_diff (a :: rest)) as [|d ds] eqn:Ed.
  { cbn [length] in *. lia. }
  rewrite Hsum, Hdl. eexists. split; [done|]. split; [done|].
  split; [reflexivity|]. cbn [length] in *. split.
  - apply round_half_even_nearest. lia.
  - intros Hinc. apply round_half_even_ge_1; [lia|].
    specialize (Hspan Hinc). lia.
Qed.

Lemma step_size_nearest_witness :
  exists first lst step,
    head lines_5 = Some first /\ last lines_5 = Some lst /\
    step_size lines_5 = Some step /\
    2 * Z.abs (Z.of_nat (length lines_5 - 1) * step - (lst - first))
      <= Z.of_nat (length lines_5 - 1) /\
    (increasing lines_5 -> 1 <= step).
Proof. apply (step_size_nearest lines_5). simpl. lia. Defined.

(** ** Line sets that are too short *)





(** ** Which cell is saved under which name *)

(** The cell in row [row] (from the top) and column [col] of the image is
    the tile named by the letter of its column and the rank [8 - row], and
    the 64 tiles have 64 different names. *)
Theorem square_name_of_cell :
  (forall row col, (row < 8)%nat -> (col < 8)%nat ->
     exists letter,
       letters !! col = Some letter /\
       square_name (tile_index col row) = Some (letter, (8 - row)%nat)) /\
  (forall i j, (i < 64)%nat -> (j < 64)%nat ->
     square_name i = square_name j -> i = j).
Proof.
  split.
  - intros row col Hr Hc.
    do 8 (destruct col as [|col]; [eexists; split; [reflexivity|];
      do 8 (destruct row as [|row]; [reflexivity|]); lia|]). lia.
  - intros i j Hi Hj. unfold square_name.
    destruct (lookup_lt_is_Some_2 letters (i mod 8)) as [ci Hci].
    { change (length letters) with 8%nat. apply Nat.mod_upper_bound. lia. }
    destruct (lookup_lt_is_Some_2 letters (j mod 8)) as [cj Hcj].
    { change (length letters) with 8%nat. apply Nat.mod_upper_bound. lia. }
    rewrite Hci, Hcj. cbn [mbind option_bind]. intros [= -> Hdiv].
    assert (i mod 8 = j mod 8)%nat as Hmod.
    { assert (NoDup letters) as Hnd.
      { unfold letters. simpl.
        repeat (constructor;
                [intros Hin;
                 repeat (apply elem_of_cons in Hin as [Hin|Hin]; [discriminate|]);
                 by apply elem_of_nil in Hin|]).
        constructor. }
      by eapply NoDup_lookup. }
    change ((i / 8 + 1)%nat = (j / 8 + 1)%nat) in Hdiv.
    pose proof (Nat.div_mod_eq i 8). pose proof (Nat.div_mod_eq j 8). lia.
Qed.

(** ** File names keep the FEN *)

Lemma replace_char_split (old new : ascii) (s : string) :
  free_of new s ->
  split_on new (replace_char old new s)
  = map (replace_char old new) (split_on old s).
Proof.
  unfold free_of. induction s as [|c s IH]; [done|].
  cbn [list_ascii_of_string]. intros [Hc Hs]%Forall_cons.
  specialize (IH Hs). cbn [replace_char split_on].
  destruct (Ascii.eqb c old) eqn:Eold.
  - cbn [split_on map]. by rewrite Ascii.eqb_refl, IH.
  - apply Ascii.eqb_neq in Hc. rewrite Hc, IH.
    destruct (split_on old s) as [|f fs]; cbn [map replace_char];
      by rewrite ?Eold.
Qed.

Lemma replace_char_free (old new : ascii) (s : string) :
  free_of old s -> replace_char old new s = s.
Proof.
  unfold free_of. induction s as [|c s IH]; simpl; [done|].
  intros [Hc Hs]%Forall_cons. apply Ascii.eqb_neq in Hc.
  by rewrite Hc, IH.
Qed.

Lemma replace_char_back (old new : ascii) (s : string) :
  free_of new s -> replace_char new old (replace_char old new s) = s.
Proof.
  unfold free_of. induction s as [|c s IH]; simpl; [done|].
  intros [Hc Hs]%Forall_cons. rewrite (IH Hs).
  destruct (Ascii.eqb_spec c old) as [->|Hne].
  - by rewrite Ascii.eqb_refl.
  - apply Ascii.eqb_neq in Hc. by rewrite Hc.
Qed.

Lemma replace_char_removes (old new : ascii) (s : string) :
  old <> new -> free_of old (replace_char old new s).
Proof.
  intros Hne. unfold free_of. induction s as [|c s IH]; simpl; [constructor|].
  constructor; [|done].
  destruct (Ascii.eqb_spec c old); congruence.
Qed.

Lemma replace_char_length (old new : ascii) (s : string) :
  String.length (replace_char old new s) = String.length s.
Proof. induction s as [|c s IH]; simpl; congruence. Qed.

Lemma free_of_app (sep : ascii) (s1 s2 : string) :
  free_of sep s1 -> free_of sep s2 -> free_of sep (s1 ++ s2).
Proof.
  unfold free_of. induction s1 as [|c s1 IH]; simpl; [done|].
  intros [Hc Hs]%Forall_cons H2. constructor; [done|by apply IH].
Qed.

Lemma free_of_concat (sep d : ascii) (gs : list string) :
  d <> sep -> Forall (free_of sep) gs ->
  free_of sep (String.concat (String d EmptyString) gs).
Proof.
  intros Hd. induction 1 as [|g gs Hg Hgs IH]; [constructor|].
  destruct gs as [|g' gs]; [done|].
  change (String.concat (String d EmptyString) (g :: g' :: gs))
    with (g ++ String d (String.concat (String d EmptyString) (g' :: gs)))%string.
  apply free_of_app; [done|]. unfold free_of. simpl. by constructor.
Qed.

Lemma fen_chars_free_of_dash (g : string) :
  Forall (fun c => c ∈ fen_chars) (list_ascii_of_string g) ->
  free_of "-" g.
Proof.
  unfold free_of. intros H. eapply Forall_impl; [exact H|].
  intros c Hc ->.
  unfold fen_chars in Hc. simpl in Hc.
  repeat (apply elem_of_cons in Hc as [Hc|Hc]; [discriminate|]).
  by apply elem_of_nil in Hc.
Qed.

(** The file name the script derives from a generated FEN,
    [fen.replace('/', '-')], has no ['/'] left, splits on ['-'] into the same
    eight groups, and gives the FEN back when ['-'] is replaced by ['/']. *)
Theorem fen_file_name (draws : list nat) :
  length draws = 64%nat ->
  Forall (fun k => (k < 13)%nat) draws ->
  exists fen : string,
    getRandomFEN draws = Some fen /\
    free_of "/" (replace_char "/" "-" fen) /\
    split_on "-" (replace_char "/" "-" fen) = split_on "/" fen /\
    replace_char "-" "/" (replace_char "/" "-" fen) = fen /\
    String.length (replace_char "/" "-" fen) = 71%nat.
Proof.
  intros Hlen Hd.
  destruct (random_choice_Some fen_chars draws Hd) as (pieces & E & Hl & Hin).
  rewrite Hlen in Hl.
  destruct (fen_groups_spec pieces Hl Hin) as (Hg8 & Hg & _).
  assert (Forall (free_of "/") (fen_groups pieces)) as Hslash.
  { eapply Forall_impl; [exact Hg|]. intros g [_ Hc].
    by apply fen_chars_free_of_slash. }
  assert (Forall (free_of "-") (fen_groups pieces)) as Hdash.
  { eapply Forall_impl; [exact Hg|]. intros g [_ Hc].
    by apply fen_chars_free_of_dash. }
  assert (split_on "/" (join_fen pieces) = fen_groups pieces) as Hsplit.
  { apply split_on_concat; [by destruct (fen_groups pieces)|done]. }
  assert (free_of "-" (join_fen pieces)) as Hfree.
  { by apply free_of_concat. }
  exists (join_fen pieces). split; [unfold getRandomFEN; by rewrite E|].
  split; [by apply replace_char_removes|]. split; [|split].
  - rewrite replace_char_split, Hsplit by done.
    clear -Hslash. induction Hslash as [|g gs Hg _ IH]; [done|].
    simpl. by rewrite IH, replace_char_free.
  - by apply replace_char_back.
  - rewrite replace_char_length. unfold join_fen.
    rewrite (concat_length "/" 8), Hg8; [done|].
    eapply Forall_impl; [exact Hg|]. by intros g [? _].
Qed.

Lemma fen_file_name_witness :
  exists fen : string,
    getRandomFEN (flat_map (fun _ => seq 0 13) (seq 0 4) ++ seq 0 12)
      = Some fen /\
    free_of "/" (replace_char "/" "-" fen) /\
    split_on "-" (replace_char "/" "-" fen) = split_on "/" fen /\
    replace_char "-" "/" (replace_char "/" "-" fen) = fen /\
    String.length (replace_char "/" "-" fen) = 71%nat.
Proof.
  apply (fen_file_name (flat_map (fun _ => seq 0 13) (seq 0 4) ++ seq 0 12)).
  - reflexivity.
  - simpl. repeat (constructor; [lia|]). constructor.
Defined.

(** ** Slices of slices *)

Lemma slice_slice {A} (lo hi lo' hi' : nat) (l : list A) :
  (lo' + hi <= hi')%nat ->
  slice lo hi (slice lo' hi' l) = slice (lo' + lo) (lo' + hi) l.
Proof.
  intros H. unfold slice.
  rewrite take_drop_commute, take_take, drop_drop.
  by replace ((lo' + hi) `min` hi')%nat with (lo' + hi)%nat by lia.
Qed.

Lemma py_slice_in_range {A} (lo hi : Z) (l : list A) :
  0 <= lo <= hi -> hi <= Z.of_nat (length l) ->
  py_slice lo hi l = slice (Z.to_nat lo) (Z.to_nat hi) l.
Proof.
  intros H1 H2. unfold py_slice. by rewrite !norm_index_in_range by lia.
Qed.

Lemma py_slice_py_slice {A} (lo hi lo' hi' : Z) (l : list A) :
  0 <= lo' -> 0 <= lo <= hi -> lo' + hi <= hi' -> hi' <= Z.of_nat (length l) ->
  py_slice lo hi (py_slice lo' hi' l) = py_slice (lo' + lo) (lo' + hi) l.
Proof.
  intros H1 H2 H3 H4.
  rewrite (py_slice_in_range lo hi)
    by (rewrite ?py_slice_length; lia).
  rewrite !py_slice_in_range by lia.
  rewrite slice_slice by lia. f_equal; lia.
Qed.

Lemma py_slice_map {A B} (f : A -> B) (lo hi : Z) (l : list A) :
  py_slice lo hi (map f l) = map f (py_slice lo hi l).
Proof.
  unfold py_slice, slice. by rewrite length_map, firstn_map, skipn_map.
Qed.

Lemma py_slice_app_l {A} (lo hi : Z) (l extra : list A) :
  0 <= lo <= hi -> hi <= Z.of_nat (length l) ->
  py_slice lo hi (l ++ extra) = py_slice lo hi l.
Proof.
  intros H1 H2.
  rewrite !py_slice_in_range by (rewrite ?length_app; lia).
  unfold slice. by rewrite take_app_le by lia.
Qed.

Lemma py_slice2_py_slice2 {A} (y1 y2 x1 x2 y1' y2' x1' x2' : Z)
    (r c : nat) (m : list (list A)) :
  has_shape r c m ->
  0 <= y1' -> 0 <= y1 <= y2 -> y1' + y2 <= y2' -> y2' <= Z.of_nat r ->
  0 <= x1' -> 0 <= x1 <= x2 -> x1' + x2 <= x2' -> x2' <= Z.of_nat c ->
  py_slice2 y1 y2 x1 x2 (py_slice2 y1' y2' x1' x2' m)
  = py_slice2 (y1' + y1) (y1' + y2) (x1' + x1) (x1' + x2) m.
Proof.
  intros [Hr Hc] ? ? ? ? ? ? ? ?. unfold py_slice2.
  rewrite py_slice_map, py_slice_py_slice by lia.
  rewrite map_map. apply map_ext_Forall, Forall_forall.
  intros row Hrow%py_slice_subset.
  pose proof (proj1 (Forall_forall _ _) Hc row Hrow) as Hl. simpl in Hl.
  apply py_slice_py_slice; lia.
Qed.

(** ** Padding by nothing *)

Lemma pad_edge_right {A} (after : nat) (l : list A) (x : A) :
  last l = Some x -> pad_edge 0 after l = Some (l ++ replicate after x).
Proof.
  destruct l as [|y l]; [done|]. intros E. simpl. by rewrite E.
Qed.

Lemma np_pad_edge_bottom {A} (pb r c : nat) (m : list (list A)) :
  has_shape r c m -> (0 < r)%nat -> (0 < c)%nat ->
  exists extra, np_pad_edge 0 pb 0 0 m = Some (m ++ extra) /\
                (pb = 0%nat -> extra = []).
Proof.
  intros [Hr Hc] Hrpos Hcpos. unfold np_pad_edge.
  destruct m as [|row0 m0] eqn:Em; [simpl in Hr; lia|]. rewrite <- Em in *.
  assert (mapM (pad_edge 0 0) m = Some m) as ->.
  { apply mapM_Some_2. clear -Hc Hcpos.
    induction Hc as [|row m Hrow _ IH]; constructor; [|done].
    destruct (last row) as [x|] eqn:E.
    - rewrite (pad_edge_right 0 row x E). by rewrite app_nil_r.
    - apply last_None in E. rewrite E in Hrow. simpl in Hrow. lia. }
  simpl. destruct (last m) as [x|] eqn:E.
  - exists (replicate pb x). split; [by apply pad_edge_right|by intros ->].
  - apply last_None in E. subst. done.
Qed.

(** ** Evenly spaced lines inside the image *)

Lemma round_half_even_exact (k den : Z) :
  0 < den -> round_half_even (den * k) den = k.
Proof.
  intros H. unfold round_half_even.
  replace (den * k) with (k * den) by lia.
  rewrite Z.mod_mul, Z.div_mul by lia.
  destruct (Z.ltb_spec (2 * 0) den); [done|lia].
Qed.

Lemma evenly_spaced_step (first gap : Z) :
  step_size (evenly_spaced first gap) = Some gap.
Proof.
  unfold evenly_spaced. cbn [seq map]. rewrite step_size_7. f_equal.
  replace (first + Z.of_nat 6 * gap - (first + Z.of_nat 0 * gap))
    with (6 * gap) by lia.
  by apply round_half_even_exact.
Qed.

Lemma image_pads_inside (x0 xl y0 yl stepx stepy h w : Z) :
  stepx <= x0 -> xl + stepx <= w -> stepy <= y0 -> yl + stepy <= h ->
  exists pry, image_pads x0 xl y0 yl stepx stepy h w = (0, pry, 0, 0) /\
              0 <= pry.
Proof.
  intros H1 H2 H3 H4. unfold image_pads.
  destruct (Z.ltb_spec (x0 - stepx) 0); [lia|].
  destruct (Z.ltb_spec (y0 - stepy) 0); [lia|].
  assert ((if w - 1 <? xl + stepx then Z.abs (xl + stepx - w) else 0) = 0)
    as ->.
  { destruct (Z.ltb_spec (w - 1) (xl + stepx)); lia. }
  eexists. split; [reflexivity|].
  destruct (Z.ltb_spec (h - 1) (yl + stepx)); lia.
Qed.

Lemma py_slice2_app_l {A} (y1 y2 x1 x2 : Z) (m extra : list (list A)) :
  0 <= y1 <= y2 -> y2 <= Z.of_nat (length m) ->
  py_slice2 y1 y2 x1 x2 (m ++ extra) = py_slice2 y1 y2 x1 x2 m.
Proof. intros H1 H2. unfold py_slice2. by rewrite py_slice_app_l. Qed.

Lemma np_pad_edge_nothing {A} (r c : nat) (m : list (list A)) :
  has_shape r c m -> (0 < r)%nat -> (0 < c)%nat ->
  np_pad_edge 0 0 0 0 m = Some m.
Proof.
  intros Hs Hr Hc.
  destruct (np_pad_edge_bottom 0 r c m Hs Hr Hc) as (extra & E & Hnil).
  rewrite E, (Hnil eq_refl). by rewrite app_nil_r.
Qed.

Section TileContent.

Context {pixel : Type} (to_uint8 : pixel -> Z).

Lemma store_tile_exact (r c : nat) (v : list (list pixel)) :
  has_shape r c v ->
  store_tile pixel to_uint8 r c v = Some (map (map to_uint8) v).
Proof.
  intros [Hr Hc]. unfold store_tile.
  rewrite (broadcast_axis_same _ _ Hr). simpl. clear Hr.
  induction Hc as [|row v Hrow _ IH]; [done|].
  simpl. rewrite (broadcast_axis_same _ _ Hrow). simpl. by rewrite IH.
Qed.

Lemma tile_grid_regular (a : list (list pixel)) (h w : nat)
    (x0 y0 sx sy : Z) :
  has_shape h w a -> 1 <= sx -> 1 <= sy ->
  sx <= x0 -> x0 + 7 * sx <= Z.of_nat w ->
  sy <= y0 -> y0 + 7 * sy <= Z.of_nat h ->
  exists g : grid pixel,
    tile_grid pixel a (evenly_spaced x0 sx) (evenly_spaced y0 sy) = Some g /\
    grid_stepx g = sx /\ grid_stepy g = sy /\
    grid_a2 g = py_slice2 (y0 - sy) (y0 + 7 * sy) (x0 - sx) (x0 + 7 * sx) a /\
    (forall k, (k <= 8)%nat -> grid_setsx g !! k = Some (Z.of_nat k * sx)) /\
    (forall k, (k <= 8)%nat -> grid_setsy g !! k = Some (Z.of_nat k * sy)).
Proof.
  intros Ha Hsx Hsy Hx0 Hxl Hy0 Hyl.
  assert (0 < h /\ 0 < w)%nat as [Hh Hw] by lia.
  unfold tile_grid. rewrite !evenly_spaced_step. bind_step.
  unfold evenly_spaced. cbn [seq map head last]. bind_step.
  rewrite (has_shape_nrows _ _ _ Ha), (has_shape_ncols _ _ _ Ha Hh).
  destruct (image_pads_inside
              (x0 + Z.of_nat 0 * sx) (x0 + Z.of_nat 6 * sx)
              (y0 + Z.of_nat 0 * sy) (y0 + Z.of_nat 6 * sy)
              sx sy (Z.of_nat h) (Z.of_nat w)) as (pry & -> & Hpry); [lia..|].
  change (Z.to_nat 0) with 0%nat.
  destruct (np_pad_edge_bottom (Z.to_nat pry) h w a Ha Hh Hw)
    as (extra & -> & _).
  bind_step. unfold boundary_sets. cbn [app map head last]. bind_step.
  eexists. split; [reflexivity|]. cbn [grid_stepx grid_stepy grid_a2
                                         grid_setsx grid_setsy].
  split; [done|]. split; [done|]. split; [|split].
  - destruct Ha as [Hr _]. rewrite py_slice2_app_l by lia. f_equal; lia.
  - intros k Hk.
    do 9 (destruct k as [|k]; [cbn [lookup list_lookup]; f_equal; lia|]). lia.
  - intros k Hk.
    do 9 (destruct k as [|k]; [cbn [lookup list_lookup]; f_equal; lia|]). lia.
Qed.

Lemma cell_bounds_regular (sets : list Z) (step : Z) (k : nat) :
  sets !! k = Some (Z.of_nat k * step) ->
  sets !! S k = Some (Z.of_nat (S k) * step) ->
  cell_bounds sets step k
  = Some (Z.of_nat k * step, Z.of_nat (S k) * step, 0, 0).
Proof.
  intros E1 E2. unfold cell_bounds. rewrite E1, E2. simpl.
  destruct (Z.ltb_spec step (Z.of_nat (S k) * step - Z.of_nat k * step));
    [lia|].
  destruct (Z.ltb_spec (Z.of_nat (S k) * step - Z.of_nat k * step) step);
    [lia|done].
Qed.

(** When the seven lines of each axis are evenly spaced and the two
    extrapolated boundaries of each axis lie inside the image,
    [getChessTiles] returns, and the tile at index [(7 - row) * 8 + col] is
    the converted [sy] by [sx] block of the image that starts [row] steps
    below and [col] steps right of the top-left boundary corner. *)
Theorem getChessTiles_regular (a : list (list pixel)) (h w : nat)
    (x0 y0 sx sy : Z) :
  has_shape h w a -> 1 <= sx -> 1 <= sy ->
  sx <= x0 -> x0 + 7 * sx <= Z.of_nat w ->
  sy <= y0 -> y0 + 7 * sy <= Z.of_nat h ->
  exists squares,
    getChessTiles pixel to_uint8 a (evenly_spaced x0 sx) (evenly_spaced y0 sy)
      = Some squares /\
    forall row col, (row < 8)%nat -> (col < 8)%nat ->
      squares !! ((7 - row) * 8 + col)%nat
      = Some (map (map to_uint8)
                (py_slice2 (y0 - sy + Z.of_nat row * sy)
                           (y0 - sy + Z.of_nat (S row) * sy)
                           (x0 - sx + Z.of_nat col * sx)
                           (x0 - sx + Z.of_nat (S col) * sx) a)).
Proof.
  intros Ha Hsx Hsy Hx0 Hxl Hy0 Hyl.
  destruct (tile_grid_regular a h w x0 y0 sx sy)
    as (g & Eg & Egx & Egy & Ea2 & Hsetsx & Hsetsy); [done..|].
  assert (forall i j, (i < 8)%nat -> (j < 8)%nat ->
            cell_tile pixel to_uint8 g i j
            = Some (map (map to_uint8)
                      (py_slice2 (y0 - sy + Z.of_nat j * sy)
                                 (y0 - sy + Z.of_nat (S j) * sy)
                                 (x0 - sx + Z.of_nat i * sx)
                                 (x0 - sx + Z.of_nat (S i) * sx) a))) as Hcell.
  { intros i j Hi Hj. unfold cell_tile, cell_slice.
    rewrite Egx, Egy.
    rewrite (cell_bounds_regular (grid_setsx g) sx i) by (apply Hsetsx; lia).
    rewrite (cell_bounds_regular (grid_setsy g) sy j) by (apply Hsetsy; lia).
    bind_step. change (Z.to_nat 0) with 0%nat. rewrite Ea2.
    rewrite (py_slice2_py_slice2 _ _ _ _ _ _ _ _ h w a Ha) by nia.
    assert (has_shape (Z.to_nat sy) (Z.to_nat sx)
              (py_slice2 (y0 - sy + Z.of_nat j * sy)
                         (y0 - sy + Z.of_nat (S j) * sy)
                         (x0 - sx + Z.of_nat i * sx)
                         (x0 - sx + Z.of_nat (S i) * sx) a)) as Hshape.
    { eapply has_shape_eq;
        [apply (py_slice2_shape _ _ _ _ h w a Ha); nia|lia..]. }
    rewrite (np_pad_edge_nothing _ _ _ Hshape) by lia. bind_step.
    by apply store_tile_exact. }
  assert (exists squares, fill_tiles pixel to_uint8 g = Some squares)
    as [squares Efill].
  { assert (forall f s, 1 <= s -> increasing (evenly_spaced f s)) as Hinc.
    { intros f s Hs. unfold evenly_spaced. cbn [seq map].
      repeat (constructor; [|repeat constructor; lia]). constructor. }
    assert (last (evenly_spaced y0 sy) = Some (y0 + Z.of_nat 6 * sy)) as Elast
      by done.
    destruct (tile_grid_shape (pixel:=pixel) a
                (evenly_spaced x0 sx) (evenly_spaced y0 sy) h w sx sy
                (y0 + Z.of_nat 6 * sy) Ha ltac:(lia) ltac:(lia)
                eq_refl (Hinc x0 sx Hsx) eq_refl (Hinc y0 sy Hsy)
                (evenly_spaced_step x0 sx) (evenly_spaced_step y0 sy)
                Elast ltac:(right; lia))
      as (g' & tx & ty & Eg' & _ & _ & _ & _ & Hs & Hax & Hay).
    assert (g' = g) as -> by congruence.
    destruct (fill_tiles_shape to_uint8 g tx ty) as (sq & E & _);
      [done..|lia|lia|by exists sq]. }
  exists squares. split; [unfold getChessTiles; by rewrite Eg|].
  intros row col Hr Hc.
  apply fill_tiles_order in Efill as [_ Hcells].
  destruct (Hcells col row Hc Hr) as (t & Et & Hs).
  rewrite Hcell in Et by done. injection Et as <-. exact Hs.
Qed.

End TileContent.

(** ** Tables and zero padding *)

Lemma table_shape (h w : nat) (f : Z -> Z -> Z) : has_shape h w (table h w f).
Proof.
  unfold table. split; [by rewrite length_map, length_seq|].
  apply Forall_map, Forall_forall. intros r _. simpl.
  by rewrite length_map, length_seq.
Qed.

Lemma at0_table (h w r c : nat) (f : Z -> Z -> Z) :
  (r < h)%nat -> (c < w)%nat ->
  at0 (table h w f) (Z.of_nat r) (Z.of_nat c) = f (Z.of_nat r) (Z.of_nat c).
Proof.
  intros Hr Hc. unfold at0, table.
  destruct (Z.ltb_spec (Z.of_nat r) 0); [lia|].
  destruct (Z.ltb_spec (Z.of_nat c) 0); [lia|]. simpl.
  rewrite !Nat2Z.id, list_lookup_fmap, lookup_seq_lt by done. simpl.
  rewrite list_lookup_fmap, lookup_seq_lt by done. done.
Qed.

Lemma at0_map (g : Z -> Z) (x : list (list Z)) (h w r c : nat) :
  has_shape h w x -> (r < h)%nat -> (c < w)%nat ->
  at0 (map (map g) x) (Z.of_nat r) (Z.of_nat c)
  = g (at0 x (Z.of_nat r) (Z.of_nat c)).
Proof.
  intros [Hh Hw] Hr Hc. unfold at0.
  destruct (Z.ltb_spec (Z.of_nat r) 0); [lia|].
  destruct (Z.ltb_spec (Z.of_nat c) 0); [lia|]. simpl.
  rewrite !Nat2Z.id, list_lookup_fmap.
  destruct (lookup_lt_is_Some_2 x r) as [row Hrow]; [lia|].
  rewrite Hrow. simpl. rewrite list_lookup_fmap.
  pose proof (proj1 (Forall_forall _ _) Hw row
                (list_elem_of_lookup_2 _ _ _ Hrow)) as Hl. simpl in Hl.
  destruct (lookup_lt_is_Some_2 row c) as [v Hv]; [lia|].
  by rewrite Hv.
Qed.

Lemma at0_binary (x : list (list Z)) (r c : Z) :
  binary x -> at0 x r c = 0 \/ at0 x r c = 1.
Proof.
  intros Hb. unfold at0. destruct ((r <? 0) || (c <? 0)); [by left|].
  destruct (x !! Z.to_nat r) as [row|] eqn:Hrow; [simpl|by left].
  destruct (row !! Z.to_nat c) as [v|] eqn:Hv; [simpl|by left].
  apply list_elem_of_lookup_2 in Hrow, Hv.
  pose proof (proj1 (Forall_forall _ _) Hb row Hrow) as Hbr.
  apply (proj1 (Forall_forall _ _) Hbr v Hv).
Qed.

(** ** Sums of zeros and ones *)

Lemma sumZ_binary (vs : list Z) :
  Forall (fun v => v = 0 \/ v = 1) vs ->
  0 <= sumZ vs <= Z.of_nat (length vs) /\
  (sumZ vs = Z.of_nat (length vs) <-> Forall (fun v => v = 1) vs).
Proof.
  induction 1 as [|v vs Hv Hvs [IH1 IH2]]; simpl.
  - split; [lia|]. split; [constructor|done].
  - change (fold_right Z.add 0 vs) with (sumZ vs).
    split; [lia|]. rewrite Forall_cons, <- IH2. lia.
Qed.

(** ** The window of a kernel *)

Lemma window_elem (kh kw : nat) (r c y x' i j : Z) :
  (y, x', (i, j)) ∈ window kh kw r c <->
  exists i' j' : nat,
    (i' < kh)%nat /\ (j' < kw)%nat /\ i = Z.of_nat i' /\ j = Z.of_nat j' /\
    y = r + i - Z.of_nat ((kh - 1) / 2) /\
    x' = c + j - Z.of_nat ((kw - 1) / 2).
Proof.
  unfold window. rewrite list_elem_of_bind. split.
  - intros (i' & (j' & Hin & Hj%elem_of_seq)%list_elem_of_bind
                & Hi%elem_of_seq).
    apply list_elem_of_singleton in Hin. injection Hin as -> -> -> ->.
    exists i', j'. repeat split; lia.
  - intros (i' & j' & Hi & Hj & -> & -> & -> & ->).
    exists i'. split; [|apply elem_of_seq; lia].
    apply list_elem_of_bind. exists j'.
    split; [by apply list_elem_of_singleton|apply elem_of_seq; lia].
Qed.

Lemma bind_length_const {A B} (f : A -> list B) (n : nat) (l : list A) :
  (forall y, length (f y) = n) -> length (l ≫= f) = (length l * n)%nat.
Proof.
  intros Hf. induction l as [|y l IH]; [done|].
  cbn [mbind list_bind]. change (length ((f y) ++ (l ≫= f)) = (length (y :: l) * n)%nat).
  rewrite length_app, IH, Hf. simpl. lia.
Qed.

Lemma window_length (kh kw : nat) (r c : Z) :
  length (window kh kw r c) = (kh * kw)%nat.
Proof.
  unfold window. rewrite (bind_length_const _ kw), length_seq; [done|].
  intros i. rewrite (bind_length_const _ 1), length_seq; [lia|done].
Qed.

(** ** Convolution with a block of ones *)

Lemma ones_shape (size : nat) : has_shape size size (ones size).
Proof.
  unfold ones. split; [apply length_replicate|].
  apply Forall_replicate, length_replicate.
Qed.

Lemma ncols_ones (size : nat) : ncols (ones size) = size.
Proof.
  destruct size as [|n]; [done|].
  change (ones (S n)) with (replicate (S n) 1 :: replicate n (replicate (S n) 1)).
  apply length_replicate.
Qed.

Lemma nrows_ones (size : nat) : nrows (ones size) = size.
Proof. apply length_replicate. Qed.

Lemma at0_ones (size i j : nat) :
  (i < size)%nat -> (j < size)%nat ->
  at0 (ones size) (Z.of_nat i) (Z.of_nat j) = 1.
Proof.
  intros Hi Hj. unfold at0, ones.
  destruct (Z.ltb_spec (Z.of_nat i) 0); [lia|].
  destruct (Z.ltb_spec (Z.of_nat j) 0); [lia|]. simpl.
  rewrite !Nat2Z.id, lookup_replicate_2 by done. simpl.
  by rewrite lookup_replicate_2.
Qed.

Lemma simple_conv_shape (x k : list (list Z)) :
  has_shape (nrows x) (ncols x) (simple_conv x k).
Proof. apply table_shape. Qed.

Lemma simple_conv_ones_at (x : list (list Z)) (size h w r c : nat) :
  has_shape h w x -> (r < h)%nat -> (c < w)%nat ->
  at0 (simple_conv x (ones size)) (Z.of_nat r) (Z.of_nat c)
  = sumZ (window_values x size (Z.of_nat r) (Z.of_nat c)).
Proof.
  intros Hs Hr Hc. unfold simple_conv.
  rewrite (has_shape_nrows _ _ _ Hs), (has_shape_ncols _ _ _ Hs) by lia.
  rewrite at0_table by done.
  rewrite nrows_ones, ncols_ones.
  unfold window_values. f_equal. apply map_ext_Forall, Forall_forall.
  intros [[y x'] [i j]] (i' & j' & Hi & Hj & -> & -> & _)%window_elem.
  rewrite at0_ones by done. lia.
Qed.

Lemma window_values_binary (x : list (list Z)) (size : nat) (r c : Z) :
  binary x ->
  Forall (fun v => v = 0 \/ v = 1) (window_values x size r c) /\
  length (window_values x size r c) = (size * size)%nat.
Proof.
  intros Hb. unfold window_values. split.
  - apply Forall_map, Forall_forall. intros [[y x'] ?] _.
    by apply at0_binary.
  - by rewrite length_map, window_length.
Qed.

Lemma window_values_centre (x : list (list Z)) (size : nat) (r c : Z) :
  (0 < size)%nat -> at0 x r c ∈ window_values x size r c.
Proof.
  intros Hsize. unfold window_values.
  apply (list_elem_of_fmap_2'
           (fun '(y, x', _) => at0 x y x')
           (window size size r c)
           (r, c, (Z.of_nat ((size - 1) / 2), Z.of_nat ((size - 1) / 2))));
    [|done].
  apply window_elem. exists ((size - 1) / 2)%nat, ((size - 1) / 2)%nat.
  assert ((size - 1) / 2 < size)%nat.
  { apply Nat.Div0.div_lt_upper_bound. lia. }
  repeat split; lia.
Qed.

(** ** erode and dilate on binary images *)

(** On a binary image [erode] gives a binary image of the same shape; a
    cell is set exactly when every cell under its window is set, cells
    beyond the border counting as unset; so a set cell of the result is a
    set cell of the input.  The image and the window are not empty. *)
Theorem erode_binary (x : list (list Z)) (size h w : nat) :
  has_shape h w x -> (0 < h)%nat -> (0 < w)%nat -> binary x ->
  (0 < size)%nat ->
  has_shape h w (erode x size) /\
  forall r c, (r < h)%nat -> (c < w)%nat ->
    let v := at0 (erode x size) (Z.of_nat r) (Z.of_nat c) in
    (v = 0 \/ v = 1) /\
    (v = 1 <->
     Forall (fun u => u = 1) (window_values x size (Z.of_nat r) (Z.of_nat c))) /\
    v <= at0 x (Z.of_nat r) (Z.of_nat c).
Proof.
  intros Hs _ _ Hb Hsize.
  pose proof (simple_conv_shape x (ones size)) as Hcs.
  rewrite (has_shape_nrows _ _ _ Hs) in Hcs.
  split.
  { destruct Hcs as [Hn Hc]. unfold erode. split; [by rewrite length_map|].
    apply Forall_map. destruct h as [|h].
    - destruct x; [constructor|by destruct Hs].
    - rewrite (has_shape_ncols _ _ _ Hs) in Hc by lia.
      eapply Forall_impl; [exact Hc|]. intros row Hrow. simpl.
      by rewrite length_map. }
  intros r c Hr Hc. cbv zeta. unfold erode.
  rewrite (has_shape_ncols _ _ _ Hs) in Hcs by lia.
  rewrite (at0_map _ _ h w) by done.
  rewrite (simple_conv_ones_at x size h w) by done.
  destruct (window_values_binary x size (Z.of_nat r) (Z.of_nat c) Hb)
    as [Hbin Hlen].
  destruct (sumZ_binary _ Hbin) as [Hrange Hall]. rewrite Hlen in *.
  pose proof (window_values_centre x size (Z.of_nat r) (Z.of_nat c) Hsize)
    as Hcentre.
  destruct (at0_binary x (Z.of_nat r) (Z.of_nat c) Hb) as [Hx|Hx].
  - assert (sumZ (window_values x size (Z.of_nat r) (Z.of_nat c))
            <> Z.of_nat (size * size)) as Hne.
    { intros Hall'%Hall.
      pose proof (proj1 (Forall_forall _ _) Hall' _ Hcentre) as H1.
      simpl in H1. lia. }
    unfold clip. split; [lia|]. split; [|lia].
    rewrite <- Hall. lia.
  - unfold clip. split; [lia|]. split; [|lia]. rewrite <- Hall. lia.
Qed.

(** On a binary image [dilate] gives a binary image of the same shape; a
    cell is set exactly when at least two cells under its window are set:
    the sum is clipped to [1, 2] before 1 is subtracted, so a window
    holding a single set cell gives 0.  The image and the window are not
    empty. *)
Theorem dilate_binary (x : list (list Z)) (size h w : nat) :
  has_shape h w x -> (0 < h)%nat -> (0 < w)%nat -> binary x ->
  (0 < size)%nat ->
  has_shape h w (dilate x size) /\
  forall r c, (r < h)%nat -> (c < w)%nat ->
    let v := at0 (dilate x size) (Z.of_nat r) (Z.of_nat c) in
    (v = 0 \/ v = 1) /\
    (v = 1 <->
     2 <= sumZ (window_values x size (Z.of_nat r) (Z.of_nat c))).
Proof.
  intros Hs _ _ Hb _.
  pose proof (simple_conv_shape x (ones size)) as Hcs.
  rewrite (has_shape_nrows _ _ _ Hs) in Hcs.
  split.
  { destruct Hcs as [Hn Hc]. unfold dilate. split; [by rewrite length_map|].
    apply Forall_map. destruct h as [|h].
    - destruct x; [constructor|by destruct Hs].
    - rewrite (has_shape_ncols _ _ _ Hs) in Hc by lia.
      eapply Forall_impl; [exact Hc|]. intros row Hrow. simpl.
      by rewrite length_map. }
  intros r c Hr Hc. cbv zeta. unfold dilate.
  rewrite (has_shape_ncols _ _ _ Hs) in Hcs by lia.
  rewrite (at0_map _ _ h w) by done.
  rewrite (simple_conv_ones_at x size h w) by done.
  unfold clip. lia.
Qed.

(** ** The outputs of the morphological operators *)

Lemma map_clip_binary (lo hi : Z) (x : list (list Z)) :
  hi = lo + 1 -> binary (map (map (fun v => clip v lo hi - lo)) x).
Proof.
  intros ->. unfold binary. apply Forall_map, Forall_forall. intros row _.
  apply Forall_map, Forall_forall. intros v _. unfold clip. lia.
Qed.

Lemma map_map_shape {A B} (g : A -> B) (h w : nat) (x : list (list A)) :
  has_shape h w x -> has_shape h w (map (map g) x).
Proof.
  intros [Hh Hw]. split; [by rewrite length_map|].
  apply Forall_map. eapply Forall_impl; [exact Hw|].
  intros row Hrow. simpl. by rewrite length_map.
Qed.

Lemma simple_conv_shape_of (x k : list (list Z)) (h w : nat) :
  has_shape h w x -> has_shape h w (simple_conv x k).
Proof.
  intros Hs. pose proof (simple_conv_shape x k) as Hc.
  rewrite (has_shape_nrows _ _ _ Hs) in Hc.
  destruct h as [|h].
  - destruct Hs as [Hl _]. destruct Hc as [Hl' _].
    apply nil_length_inv in Hl'. rewrite Hl'. by split.
  - by rewrite (has_shape_ncols _ _ _ Hs) in Hc by lia.
Qed.

Lemma dilate_shape_binary (x : list (list Z)) (size h w : nat) :
  has_shape h w x -> has_shape h w (dilate x size) /\ binary (dilate x size).
Proof.
  intros Hs. unfold dilate. split.
  - by apply map_map_shape, simple_conv_shape_of.
  - by apply (map_clip_binary 1 2).
Qed.

Lemma erode_shape_binary (x : list (list Z)) (size h w : nat) :
  has_shape h w x -> has_shape h w (erode x size) /\ binary (erode x size).
Proof.
  intros Hs. unfold erode. cbv zeta. split.
  - by apply map_map_shape, simple_conv_shape_of.
  - apply map_clip_binary. lia.
Qed.

Lemma zip_with_shape_binary (a b : list (list Z)) (h w : nat) :
  has_shape h w a -> has_shape h w b ->
  let d := zip_with (zip_with (fun u v => clip (u - v) 0 1)) a b in
  has_shape h w d /\ binary d.
Proof.
  intros [Ha1 Ha2] [Hb1 Hb2]. cbv zeta. split; [split|].
  - rewrite length_zip_with. lia.
  - apply Forall_forall. intros row Hrow.
    apply elem_of_lookup_zip_with in Hrow as (i & ra & rb & -> & Hra & Hrb).
    apply list_elem_of_lookup_2 in Hra, Hrb.
    pose proof (proj1 (Forall_forall _ _) Ha2 ra Hra) as H1.
    pose proof (proj1 (Forall_forall _ _) Hb2 rb Hrb) as H2. simpl in *.
    rewrite length_zip_with. lia.
  - apply Forall_forall. intros row Hrow.
    apply elem_of_lookup_zip_with in Hrow as (i & ra & rb & -> & _ & _).
    apply Forall_forall. intros v Hv.
    apply elem_of_lookup_zip_with in Hv as (j & u & u' & -> & _ & _).
    unfold clip. lia.
Qed.

(** Whatever the values of a non-empty integer image and whatever the
    window size, [dilate], [erode], [opening], [closing] and [skeleton]
    return an image of the input's shape whose cells are all 0 or 1. *)
Theorem morphology_outputs (x : list (list Z)) (size h w : nat) :
  has_shape h w x -> (0 < h)%nat -> (0 < w)%nat -> (0 < size)%nat ->
  (has_shape h w (dilate x size) /\ binary (dilate x size)) /\
  (has_shape h w (erode x size) /\ binary (erode x size)) /\
  (has_shape h w (opening x size) /\ binary (opening x size)) /\
  (has_shape h w (closing x size) /\ binary (closing x size)) /\
  (has_shape h w (skeleton x size) /\ binary (skeleton x size)).
Proof.
  intros Hs _ _ _.
  pose proof (dilate_shape_binary x size h w Hs) as Hd.
  pose proof (erode_shape_binary x size h w Hs) as He.
  pose proof (erode_shape_binary x 3 h w Hs) as He3.
  split; [done|]. split; [done|].
  split; [apply dilate_shape_binary, He|].
  split; [apply erode_shape_binary, Hd|].
  unfold skeleton. apply zip_with_shape_binary; [apply He3|].
  unfold opening. apply dilate_shape_binary, erode_shape_binary, He3.
Qed.

(** ** The gradient kernels on a uniform neighbourhood *)

Lemma conv_uniform (x k : list (list Z)) (win : list (Z * Z * (Z * Z))) (v : Z) :
  Forall (fun '(y, x', _) => at0 x y x' = v) win ->
  sumZ (map (fun '(y, x', (i, j)) => at0 x y x' * at0 k i j) win)
  = v * sumZ (map (fun '(_, _, (i, j)) => at0 k i j) win).
Proof.
  induction 1 as [|[[y x'] [i j]] win Hw _ IH]; simpl; [lia|].
  change (fold_right Z.add 0 ?l) with (sumZ l). rewrite IH, Hw. lia.
Qed.

(** [gradientx], [gradienty] and [corners] keep the shape of the image and
    are zero at every cell whose 3 by 3 neighbourhood, zero padding
    included, holds a single value: each kernel sums to zero. *)
Theorem gradient_uniform (x : list (list Z)) (h w r c : nat) (v : Z) :
  has_shape h w x -> (r < h)%nat -> (c < w)%nat ->
  Forall (fun u => u = v) (window_values x 3 (Z.of_nat r) (Z.of_nat c)) ->
  (has_shape h w (gradientx x) /\
   at0 (gradientx x) (Z.of_nat r) (Z.of_nat c) = 0) /\
  (has_shape h w (gradienty x) /\
   at0 (gradienty x) (Z.of_nat r) (Z.of_nat c) = 0) /\
  (has_shape h w (corners x) /\
   at0 (corners x) (Z.of_nat r) (Z.of_nat c) = 0).
Proof.
  intros Hs Hr Hc Hu.
  assert (Forall (fun '(y, x', _) => at0 x y x' = v)
            (window 3 3 (Z.of_nat r) (Z.of_nat c))) as Hwin.
  { unfold window_values in Hu. apply Forall_map in Hu.
    eapply Forall_impl; [exact Hu|]. by intros [[y x'] ij]. }
  assert (forall k, nrows k = 3%nat -> ncols k = 3%nat ->
            sumZ (map (fun '(_, _, (i, j)) => at0 k i j)
                    (window 3 3 (Z.of_nat r) (Z.of_nat c))) = 0 ->
            has_shape h w (simple_conv x k) /\
            at0 (simple_conv x k) (Z.of_nat r) (Z.of_nat c) = 0) as Hk.
  { intros k Hk1 Hk2 Hsum. split; [by apply simple_conv_shape_of|].
    unfold simple_conv.
    rewrite (has_shape_nrows _ _ _ Hs), (has_shape_ncols _ _ _ Hs) by lia.
    rewrite at0_table by done. rewrite Hk1, Hk2.
    rewrite (conv_uniform x k _ v Hwin), Hsum. lia. }
  repeat split; apply Hk; try reflexivity; vm_compute; reflexivity.
Qed.

(** ** The Hough response curves *)

Lemma sumZ_nonneg (l : list Z) :
  Forall (fun v => 0 <= v) l ->
  0 <= sumZ l /\ (0 < sumZ l <-> exists v, v ∈ l /\ 0 < v).
Proof.
  induction 1 as [|v l Hv _ [IH1 IH2]]; simpl.
  - split; [lia|]. split; [lia|]. by intros (v & Hin%elem_of_nil & _).
  - change (fold_right Z.add 0 l) with (sumZ l). split; [lia|]. split.
    + intros Hpos. destruct (decide (0 < v)) as [|Hz].
      * exists v. split; [by left|done].
      * destruct (proj1 IH2) as (u & Hu & Hpu); [lia|].
        exists u. split; [by right|done].
    + intros (u & [->|Hu]%elem_of_cons & Hpu); [lia|].
      assert (0 < sumZ l) by (apply IH2; eauto). lia.
Qed.

Lemma alternation_sign (line : list Z) :
  0 <= alternation line /\
  (0 < alternation line <->
   (exists v, v ∈ line /\ 0 < v) /\ (exists v, v ∈ line /\ v < 0)).
Proof.
  unfold alternation.
  destruct (sumZ_nonneg (map (fun v => clip v 0 255) line)) as [Hp1 Hp2].
  { apply Forall_map, Forall_forall. intros v _. unfold clip. simpl. lia. }
  destruct (sumZ_nonneg (map (fun v => - clip v (-255) 0) line)) as [Hn1 Hn2].
  { apply Forall_map, Forall_forall. intros v _. unfold clip. simpl. lia. }
  split; [nia|].
  assert ((exists v, v ∈ map (fun v => clip v 0 255) line /\ 0 < v)
          <-> exists v, v ∈ line /\ 0 < v) as Ep.
  { split.
    - intros (u & (v & -> & Hv)%list_elem_of_fmap & Hu).
      exists v. split; [done|]. unfold clip in Hu. lia.
    - intros (v & Hv & Hpos). exists (clip v 0 255).
      split; [by apply (list_elem_of_fmap_2 (fun v => clip v 0 255))
             |unfold clip; lia]. }
  assert ((exists v, v ∈ map (fun v => - clip v (-255) 0) line /\ 0 < v)
          <-> exists v, v ∈ line /\ v < 0) as En.
  { split.
    - intros (u & (v & -> & Hv)%list_elem_of_fmap & Hu).
      exists v. split; [done|]. unfold clip in Hu. lia.
    - intros (v & Hv & Hneg). exists (- clip v (-255) 0).
      split; [by apply (list_elem_of_fmap_2 (fun v => - clip v (-255) 0))
             |unfold clip; lia]. }
  rewrite <- Ep, <- En, <- Hp2, <- Hn2. nia.
Qed.

Lemma Qmake_sign (n : Z) (d : positive) :
  ((0 <= n # d)%Q <-> 0 <= n) /\ ((0 < n # d)%Q <-> 0 < n).
Proof. unfold Qle, Qlt. simpl. lia. Qed.

(** The response curves of a non-empty image have one sample per column,
    respectively per row; no sample is negative, and a sample is positive exactly
    when its line of gradients holds both a positive and a negative value:
    an edge crossed in one direction only gives no response. *)
Theorem hough_response (a : list (list Z)) (h w : nat) :
  has_shape h w a -> (0 < h)%nat -> (0 < w)%nat ->
  length (hough_Dx a) = w /\ length (hough_Dy a) = h /\
  (forall c q, hough_Dx a !! c = Some q ->
     (0 <= q)%Q /\
     ((0 < q)%Q <->
      (exists v, v ∈ column (gradientx a) c /\ 0 < v) /\
      (exists v, v ∈ column (gradientx a) c /\ v < 0))) /\
  (forall r q, hough_Dy a !! r = Some q ->
     exists row, gradienty a !! r = Some row /\
     (0 <= q)%Q /\
     ((0 < q)%Q <->
      (exists v, v ∈ row /\ 0 < v) /\ (exists v, v ∈ row /\ v < 0))).
Proof.
  intros Hs Hh _. unfold hough_Dx, hough_Dy. cbv zeta.
  rewrite (has_shape_ncols _ _ _ Hs Hh).
  split; [by rewrite length_map, length_seq|].
  split.
  { rewrite length_map. unfold gradienty.
    by destruct (simple_conv_shape_of a
                   [[-1; -1; -1]; [0; 0; 0]; [1; 1; 1]] h w Hs). }
  split.
  - intros c q Hq. rewrite list_lookup_fmap in Hq.
    destruct (seq 0 w !! c) as [c'|] eqn:Ec; [|done].
    apply lookup_seq in Ec as [-> _]. simpl in Hq. injection Hq as <-.
    destruct (alternation_sign (column (gradientx a) c)) as [H1 H2].
    destruct (Qmake_sign (alternation (column (gradientx a) c))
                (Z.to_pos (Z.of_nat (nrows a * nrows a)))) as [Q1 Q2].
    split; [by apply Q1|]. by rewrite Q2.
  - intros r q Hq. rewrite list_lookup_fmap in Hq.
    destruct (gradienty a !! r) as [row|] eqn:Er; [|done].
    simpl in Hq. injection Hq as <-. exists row. split; [done|].
    destruct (alternation_sign row) as [H1 H2].
    destruct (Qmake_sign (alternation row)
                (Z.to_pos (Z.of_nat (w * w)))) as [Q1 Q2].
    split; [by apply Q1|]. by rewrite Q2.
Qed.

(** ** A uniform image *)

Lemma inside_range (n : nat) (y : Z) : 0 <= inside n y <= 1.
Proof. unfold inside. destruct (_ && _); lia. Qed.

Lemma inside_in (n i : nat) : (i < n)%nat -> inside n (Z.of_nat i) = 1.
Proof.
  intros Hi. unfold inside.
  destruct (Z.leb_spec 0 (Z.of_nat i)); [|lia].
  destruct (Z.ltb_spec (Z.of_nat i) (Z.of_nat n)); [done|lia].
Qed.

Lemma at0_uniform (h w : nat) (v y x : Z) :
  at0 (replicate h (replicate w v)) y x = v * inside h y * inside w x.
Proof.
  unfold at0, inside.
  destruct (Z.ltb_spec y 0), (Z.leb_spec 0 y); try lia; simpl; [lia|].
  destruct (Z.ltb_spec x 0), (Z.leb_spec 0 x); try lia; simpl; [lia|].
  destruct (Z.ltb_spec y (Z.of_nat h)).
  - rewrite lookup_replicate_2 by lia. simpl.
    destruct (Z.ltb_spec x (Z.of_nat w)).
    + rewrite lookup_replicate_2 by lia. simpl. lia.
    + assert (replicate w v !! Z.to_nat x = None) as ->
        by (apply lookup_replicate_None; lia).
      simpl. lia.
  - assert (replicate h (replicate w v) !! Z.to_nat y = None) as ->
      by (apply lookup_replicate_None; lia).
    simpl. lia.
Qed.

(** One cell of a convolution with a 3 by 3 kernel. *)
Lemma simple_conv_3x3 (x : list (list Z)) (h w r c : nat)
    (k00 k01 k02 k10 k11 k12 k20 k21 k22 : Z) :
  has_shape h w x -> (r < h)%nat -> (c < w)%nat ->
  at0 (simple_conv x [[k00; k01; k02]; [k10; k11; k12]; [k20; k21; k22]])
      (Z.of_nat r) (Z.of_nat c)
  = at0 x (Z.of_nat r - 1) (Z.of_nat c - 1) * k00
    + at0 x (Z.of_nat r - 1) (Z.of_nat c) * k01
    + at0 x (Z.of_nat r - 1) (Z.of_nat c + 1) * k02
    + at0 x (Z.of_nat r) (Z.of_nat c - 1) * k10
    + at0 x (Z.of_nat r) (Z.of_nat c) * k11
    + at0 x (Z.of_nat r) (Z.of_nat c + 1) * k12
    + at0 x (Z.of_nat r + 1) (Z.of_nat c - 1) * k20
    + at0 x (Z.of_nat r + 1) (Z.of_nat c) * k21
    + at0 x (Z.of_nat r + 1) (Z.of_nat c + 1) * k22.
Proof.
  intros Hs Hr Hc. unfold simple_conv.
  rewrite (has_shape_nrows _ _ _ Hs), (has_shape_ncols _ _ _ Hs) by lia.
  rewrite at0_table by done.
  change (nrows [[k00; k01; k02]; [k10; k11; k12]; [k20; k21; k22]])
    with 3%nat.
  change (ncols [[k00; k01; k02]; [k10; k11; k12]; [k20; k21; k22]])
    with 3%nat.
  set (R := Z.of_nat r). set (C := Z.of_nat c).
  change (window 3 3 R C)
    with [(R + 0 - 1, C + 0 - 1, (0, 0)); (R + 0 - 1, C + 1 - 1, (0, 1));
          (R + 0 - 1, C + 2 - 1, (0, 2));
          (R + 1 - 1, C + 0 - 1, (1, 0)); (R + 1 - 1, C + 1 - 1, (1, 1));
          (R + 1 - 1, C + 2 - 1, (1, 2));
          (R + 2 - 1, C + 0 - 1, (2, 0)); (R + 2 - 1, C + 1 - 1, (2, 1));
          (R + 2 - 1, C + 2 - 1, (2, 2))].
  cbn [map sumZ fold_right].
  change (at0 [[k00; k01; k02]; [k10; k11; k12]; [k20; k21; k22]] 0 0) with k00.
  change (at0 [[k00; k01; k02]; [k10; k11; k12]; [k20; k21; k22]] 0 1) with k01.
  change (at0 [[k00; k01; k02]; [k10; k11; k12]; [k20; k21; k22]] 0 2) with k02.
  change (at0 [[k00; k01; k02]; [k10; k11; k12]; [k20; k21; k22]] 1 0) with k10.
  change (at0 [[k00; k01; k02]; [k10; k11; k12]; [k20; k21; k22]] 1 1) with k11.
  change (at0 [[k00; k01; k02]; [k10; k11; k12]; [k20; k21; k22]] 1 2) with k12.
  change (at0 [[k00; k01; k02]; [k10; k11; k12]; [k20; k21; k22]] 2 0) with k20.
  change (at0 [[k00; k01; k02]; [k10; k11; k12]; [k20; k21; k22]] 2 1) with k21.
  change (at0 [[k00; k01; k02]; [k10; k11; k12]; [k20; k21; k22]] 2 2) with k22.
  replace (R + 0 - 1) with (R - 1) by lia.
  replace (R + 1 - 1) with R by lia.
  replace (R + 2 - 1) with (R + 1) by lia.
  replace (C + 0 - 1) with (C - 1) by lia.
  replace (C + 1 - 1) with C by lia.
  replace (C + 2 - 1) with (C + 1) by lia.
  lia.
Qed.

Lemma uniform_shape (h w : nat) (v : Z) :
  has_shape h w (replicate h (replicate w v)).
Proof.
  split; [apply length_replicate|]. apply Forall_replicate, length_replicate.
Qed.

(** On a uniform image the x gradient of a cell is the value times a
    positive row count times a factor that depends on the column only, and
    the y gradient symmetrically. *)
Lemma gradient_of_uniform (h w r c : nat) (v : Z) :
  (r < h)%nat -> (c < w)%nat ->
  let a := replicate h (replicate w v) in
  (exists k, 1 <= k /\
     at0 (gradientx a) (Z.of_nat r) (Z.of_nat c)
     = k * (v * (inside w (Z.of_nat c + 1) - inside w (Z.of_nat c - 1)))) /\
  (exists k, 1 <= k /\
     at0 (gradienty a) (Z.of_nat r) (Z.of_nat c)
     = k * (v * (inside h (Z.of_nat r + 1) - inside h (Z.of_nat r - 1)))).
Proof.
  intros Hr Hc a. unfold gradientx, gradienty.
  rewrite !(simple_conv_3x3 a h w r c) by (done || apply uniform_shape).
  subst a. rewrite !at0_uniform.
  pose proof (inside_range h (Z.of_nat r - 1)).
  pose proof (inside_range h (Z.of_nat r + 1)).
  pose proof (inside_range w (Z.of_nat c - 1)).
  pose proof (inside_range w (Z.of_nat c + 1)).
  rewrite (inside_in h r Hr), (inside_in w c Hc).
  split.
  - exists (inside h (Z.of_nat r - 1) + 1 + inside h (Z.of_nat r + 1)).
    split; [lia|ring].
  - exists (inside w (Z.of_nat c - 1) + 1 + inside w (Z.of_nat c + 1)).
    split; [lia|ring].
Qed.

Lemma column_elem (m : list (list Z)) (h w c : nat) (u : Z) :
  has_shape h w m -> u ∈ column m c ->
  exists r, (r < h)%nat /\ u = at0 m (Z.of_nat r) (Z.of_nat c).
Proof.
  intros [Hh Hw] Hu. unfold column in Hu.
  apply list_elem_of_fmap in Hu as (row & -> & Hrow).
  apply list_elem_of_lookup in Hrow as [r Hr].
  exists r. split; [apply lookup_lt_Some in Hr; lia|].
  unfold at0.
  destruct (Z.ltb_spec (Z.of_nat r) 0); [lia|].
  destruct (Z.ltb_spec (Z.of_nat c) 0); [lia|]. simpl.
  by rewrite !Nat2Z.id, Hr.
Qed.

Lemma row_elem (m : list (list Z)) (h w r : nat) (row : list Z) (u : Z) :
  has_shape h w m -> m !! r = Some row -> u ∈ row ->
  exists c, (r < h)%nat /\ (c < w)%nat /\
            u = at0 m (Z.of_nat r) (Z.of_nat c).
Proof.
  intros [Hh Hw] Hr Hu.
  apply list_elem_of_lookup in Hu as [c Hc].
  exists c. split; [apply lookup_lt_Some in Hr; lia|].
  split.
  { apply lookup_lt_Some in Hc.
    apply list_elem_of_lookup_2 in Hr.
    pose proof (proj1 (Forall_forall _ _) Hw row Hr) as E. simpl in E. lia. }
  unfold at0.
  destruct (Z.ltb_spec (Z.of_nat r) 0); [lia|].
  destruct (Z.ltb_spec (Z.of_nat c) 0); [lia|]. simpl.
  rewrite !Nat2Z.id, Hr. simpl. by rewrite Hc.
Qed.

Lemma alternation_one_sign (line : list Z) (t : Z) :
  (forall u, u ∈ line -> exists k, 1 <= k /\ u = k * t) ->
  alternation line = 0.
Proof.
  intros Hline.
  destruct (alternation_sign line) as [H0 Hpos].
  destruct (decide (0 < alternation line)) as [Hlt|]; [|lia].
  apply Hpos in Hlt as [(u1 & Hu1 & Hp) (u2 & Hu2 & Hn)].
  destruct (Hline u1 Hu1) as (k1 & Hk1 & ->).
  destruct (Hline u2 Hu2) as (k2 & Hk2 & ->). nia.
Qed.

Lemma hough_uniform (h w : nat) (v : Z) :
  (0 < h)%nat -> (0 < w)%nat ->
  let a := replicate h (replicate w v) in
  (length (hough_Dx a) = w /\ Forall (fun q => q == 0)%Q (hough_Dx a)) /\
  (length (hough_Dy a) = h /\ Forall (fun q => q == 0)%Q (hough_Dy a)).
Proof.
  intros Hh Hw a.
  pose proof (uniform_shape h w v) as Hs. fold a in Hs.
  pose proof (simple_conv_shape_of a [[-1; 0; 1]; [-1; 0; 1]; [-1; 0; 1]]
                h w Hs) as Hsx.
  pose proof (simple_conv_shape_of a [[-1; -1; -1]; [0; 0; 0]; [1; 1; 1]]
                h w Hs) as Hsy.
  fold (gradientx a) in Hsx. fold (gradienty a) in Hsy.
  unfold hough_Dx, hough_Dy. cbv zeta.
  rewrite (has_shape_ncols _ _ _ Hs Hh).
  split; (split; [rewrite length_map; try apply length_seq; apply Hsy|]).
  - apply Forall_map, Forall_forall. intros c Hc%elem_of_seq. simpl.
    rewrite (alternation_one_sign _
               (v * (inside w (Z.of_nat c + 1) - inside w (Z.of_nat c - 1)))).
    { reflexivity. }
    intros u Hu.
    destruct (column_elem _ h w c u Hsx Hu) as (r & Hr & ->).
    apply (gradient_of_uniform h w r c v); lia.
  - apply Forall_map, Forall_forall. intros row Hrow. simpl.
    apply list_elem_of_lookup in Hrow as [r Hrow].
    rewrite (alternation_one_sign _
               (v * (inside h (Z.of_nat r + 1) - inside h (Z.of_nat r - 1)))).
    { reflexivity. }
    intros u Hu.
    destruct (row_elem _ h w r row u Hsy Hrow Hu) as (c & Hr & Hc & ->).
    apply (gradient_of_uniform h w r c v); lia.
Qed.

(** ** The maximum of a curve *)

Lemma fold_max_spec (l : list Q) (x : Q) :
  let m := fold_left (fun m v => if Qlt_bool m v then v else m) l x in
  (m = x \/ m ∈ l) /\ (x <= m)%Q /\ Forall (fun v => v <= m)%Q l.
Proof.
  revert x. induction l as [|y l IH]; intros x; simpl.
  - split; [by left|]. split; [apply Qle_refl|constructor].
  - destruct (IH (if Qlt_bool x y then y else x)) as (Hin & Hge & Hall).
    set (m := fold_left _ l _) in *.
    destruct (Qlt_bool x y) eqn:E.
    + apply Qlt_bool_true in E.
      split; [destruct Hin as [->|]; right; [left|by right]|].
      split; [eapply Qle_trans; [apply Qlt_le_weak, E|done]|].
      by constructor.
    + apply Qlt_bool_false in E.
      split; [destruct Hin as [->|]; [by left|right; by right]|].
      split; [done|]. constructor; [|done]. by eapply Qle_trans.
Qed.

Lemma reduce_max_spec (l : list Q) (m : Q) :
  reduce_max l = Some m -> m ∈ l /\ Forall (fun v => v <= m)%Q l.
Proof.
  destruct l as [|x l]; [done|]. simpl. intros [= <-].
  destruct (fold_max_spec l x) as (Hin & Hge & Hall). cbv zeta in *.
  split; [destruct Hin as [->|]; [left|by right]|by constructor].
Qed.

Lemma hough_thresh_zero (hd : list Q) :
  hd <> [] -> Forall (fun q => q == 0)%Q hd ->
  exists t, hough_thresh hd = Some t /\ (t == 0)%Q /\
            Forall (fun v => v <= t)%Q hd /\
            Forall (fun v => v <= t * (9 # 10))%Q hd.
Proof.
  intros Hne Hz. unfold hough_thresh.
  destruct (reduce_max hd) as [m|] eqn:Em; [|by destruct hd].
  destruct (reduce_max_spec hd m Em) as [Hin _].
  pose proof (proj1 (Forall_forall _ _) Hz m Hin) as Hm. simpl in Hm.
  exists (m * 3 / 5)%Q. split; [done|].
  assert (m * 3 / 5 == 0)%Q as Ht by (rewrite Hm; reflexivity).
  split; [done|].
  split; (eapply Forall_impl; [exact Hz|]); intros q Hq; simpl in *;
    rewrite Hq, Ht; done.
Qed.

(** On a uniform image, whatever its grey level, both response curves are
    zero everywhere (the gradients at the border, where the image meets
    the zero padding, all point the same way along a line), so are the
    thresholds, and the script finds no line on either axis and reports no
    board. *)
Theorem uniform_image_no_board (gausswin : list Q) (h w : nat) (v : Z) :
  gausswin <> [] -> (0 < h)%nat -> (0 < w)%nat ->
  let a := replicate h (replicate w v) in
  Forall (fun q => q == 0)%Q (hough_Dx a) /\
  Forall (fun q => q == 0)%Q (hough_Dy a) /\
  board_detection gausswin a = Some ([], [], false).
Proof.
  intros Hg Hh Hw a.
  destruct (hough_uniform h w v Hh Hw) as [[Lx Zx] [Ly Zy]]. fold a in Lx, Zx, Ly, Zy.
  split; [done|]. split; [done|].
  assert (hough_Dx a <> []) as Nx by (intros E; rewrite E in Lx; simpl in Lx; lia).
  assert (hough_Dy a <> []) as Ny by (intros E; rewrite E in Ly; simpl in Ly; lia).
  destruct (hough_thresh_zero _ Nx Zx) as (tx & Etx & _ & Bx & Bx').
  destruct (hough_thresh_zero _ Ny Zy) as (ty & Ety & _ & By & By').
  unfold board_detection. cbv zeta. rewrite Etx, Ety.
  cbn [mbind option_bind]. unfold detection_script, getChessLines.
  rewrite (candidateLines_below gausswin _ tx Hg Nx Bx).
  rewrite (candidateLines_below gausswin _ ty Hg Ny By).
  rewrite (candidateLines_below gausswin _ _ Hg Nx Bx').
  rewrite (candidateLines_below gausswin _ _ Hg Ny By').
  reflexivity.
Qed.

Lemma uniform_image_no_board_witness :
  let a := replicate 3 (replicate 4 200) in
  Forall (fun q => q == 0)%Q (hough_Dx a) /\
  Forall (fun q => q == 0)%Q (hough_Dy a) /\
  board_detection gausswin21 a = Some ([], [], false).
Proof.
  apply (uniform_image_no_board gausswin21 3 4 200); try lia.
  vm_compute. discriminate.
Defined.

(** ** The operators on concrete images *)

Lemma ramp_image_shape (h w : nat) : has_shape h w (ramp_image h w).
Proof.
  unfold ramp_image. split; [by rewrite length_map, length_seq|].
  apply Forall_map, Forall_forall. intros y _. cbv beta.
  by rewrite length_map, length_seq.
Qed.

Lemma blob_image_shape : has_shape 5 5 blob_image.
Proof. split; [reflexivity|]. repeat constructor. Qed.

Lemma blob_image_binary : binary blob_image.
Proof. repeat (constructor; [repeat (constructor; [lia|])|]); constructor. Qed.

Lemma getChessTiles_pixels_witness :
  exists p, pixel_of p (ramp_image 40 40) /\ 35 = id p.
Proof.
  apply (getChessTiles_pixels id (ramp_image 40 40) lines_5 lines_5 squares_40
           (py_slice2 35 40 0 5 (ramp_image 40 40)) 35).
  - vm_compute. reflexivity.
  - apply (list_elem_of_lookup_2 _ 0%nat). vm_compute. reflexivity.
  - exists [35; 36; 37; 38; 39]. split; vm_compute; constructor.
Defined.

Lemma getChessTiles_regular_witness :
  exists squares,
    getChessTiles Z id (ramp_image 40 40) (evenly_spaced 5 5) (evenly_spaced 5 5)
      = Some squares /\
    forall row col, (row < 8)%nat -> (col < 8)%nat ->
      squares !! ((7 - row) * 8 + col)%nat
      = Some (map (map id)
                (py_slice2 (5 - 5 + Z.of_nat row * 5)
                           (5 - 5 + Z.of_nat (S row) * 5)
                           (5 - 5 + Z.of_nat col * 5)
                           (5 - 5 + Z.of_nat (S col) * 5) (ramp_image 40 40))).
Proof.
  apply (getChessTiles_regular id (ramp_image 40 40) 40 40 5 5 5 5);
    try lia.
  apply ramp_image_shape.
Defined.

Lemma erode_binary_witness :
  has_shape 5 5 (erode blob_image 3) /\
  forall r c, (r < 5)%nat -> (c < 5)%nat ->
    let v := at0 (erode blob_image 3) (Z.of_nat r) (Z.of_nat c) in
    (v = 0 \/ v = 1) /\
    (v = 1 <->
     Forall (fun u => u = 1)
            (window_values blob_image 3 (Z.of_nat r) (Z.of_nat c))) /\
    v <= at0 blob_image (Z.of_nat r) (Z.of_nat c).
Proof.
  apply (erode_binary blob_image 3 5 5); try lia.
  - apply blob_image_shape.
  - apply blob_image_binary.
Defined.

Lemma dilate_binary_witness :
  has_shape 5 5 (dilate blob_image 3) /\
  forall r c, (r < 5)%nat -> (c < 5)%nat ->
    let v := at0 (dilate blob_image 3) (Z.of_nat r) (Z.of_nat c) in
    (v = 0 \/ v = 1) /\
    (v = 1 <->
     2 <= sumZ (window_values blob_image 3 (Z.of_nat r) (Z.of_nat c))).
Proof.
  apply (dilate_binary blob_image 3 5 5); try lia.
  - apply blob_image_shape.
  - apply blob_image_binary.
Defined.

Lemma morphology_outputs_witness :
  (has_shape 4 6 (dilate (ramp_image 4 6) 3) /\
   binary (dilate (ramp_image 4 6) 3)) /\
  (has_shape 4 6 (erode (ramp_image 4 6) 3) /\
   binary (erode (ramp_image 4 6) 3)) /\
  (has_shape 4 6 (opening (ramp_image 4 6) 3) /\
   binary (opening (ramp_image 4 6) 3)) /\
  (has_shape 4 6 (closing (ramp_image 4 6) 3) /\
   binary (closing (ramp_image 4 6) 3)) /\
  (has_shape 4 6 (skeleton (ramp_image 4 6) 3) /\
   binary (skeleton (ramp_image 4 6) 3)).
Proof.
  apply (morphology_outputs (ramp_image 4 6) 3 4 6); try lia.
  apply ramp_image_shape.
Defined.

Lemma gradient_uniform_witness :
  (has_shape 5 5 (gradientx blob_image) /\
   at0 (gradientx blob_image) (Z.of_nat 2) (Z.of_nat 2) = 0) /\
  (has_shape 5 5 (gradienty blob_image) /\
   at0 (gradienty blob_image) (Z.of_nat 2) (Z.of_nat 2) = 0) /\
  (has_shape 5 5 (corners blob_image) /\
   at0 (corners blob_image) (Z.of_nat 2) (Z.of_nat 2) = 0).
Proof.
  apply (gradient_uniform blob_image 5 5 2 2 1); try lia.
  - apply blob_image_shape.
  - vm_compute. repeat constructor.
Defined.

Lemma hough_response_witness :
  length (hough_Dx blob_image) = 5%nat /\
  length (hough_Dy blob_image) = 5%nat /\
  (forall c q, hough_Dx blob_image !! c = Some q ->
     (0 <= q)%Q /\
     ((0 < q)%Q <->
      (exists v, v ∈ column (gradientx blob_image) c /\ 0 < v) /\
      (exists v, v ∈ column (gradientx blob_image) c /\ v < 0))) /\
  (forall r q, hough_Dy blob_image !! r = Some q ->
     exists row, gradienty blob_image !! r = Some row /\
     (0 <= q)%Q /\
     ((0 < q)%Q <->
      (exists v, v ∈ row /\ 0 < v) /\ (exists v, v ∈ row /\ v < 0))).
Proof.
  apply (hough_response blob_image 5 5); try lia.
  apply blob_image_shape.
Defined.
